(** * PiCN: RIB tree, FIB compilation and the autoconfig server layer

    A shallow embedding of
    - [PiCN/Layers/RoutingLayer/RoutingInformationBase/TreeRoutingInformationBase.py]
    - [PiCN/Layers/AutoconfigLayer/AutoconfigServerLayer.py]
    and the properties their specification states about them.

    Conventions of the embedding.
    - A Python [int] is a [Z]; [bytes] and [str] values are [string]s (a
      [str] is represented by its UTF-8 bytes, so [encode('utf-8')] is the
      identity and [decode('ascii')] only checks that every byte is below
      128).
    - A [datetime] is a [Z] (a count of seconds); [timedelta(hours=1)] is
      [3600].  An optional [datetime] ([None] allowed) is an [option Z].
    - A Python [dict] is an association list in insertion order: assigning
      to a present key keeps its position, assigning to a fresh key appends,
      [del] removes the entry.
    - A raised exception is the [Raise] case of [result].
    - The lists that [collapse] lengthens in place are given twice: by
      value in [RIBTree.collapse], and as objects of a store, with their
      addresses, in [Store.collapse]; [store_collapse_refines] shows that
      the two agree. *)

From stdpp Require Import base tactics option list numbers strings pretty gmap.

Set Default Proof Using "Type".

(** ** Python values shared by both components *)

Abbreviation bytes := string (only parsing).

Inductive exn : Set :=
  | ValueError | TypeError | IndexError | KeyError | UnicodeDecodeError.

Inductive result (A : Type) : Type :=
  | Ok (a : A)
  | Raise (e : exn).
Arguments Ok {A} a.
Arguments Raise {A} e.

#[global] Instance result_ret : MRet result := λ A a, Ok a.
#[global] Instance result_bind : MBind result := λ A B f m,
  match m with
  | Ok a => f a
  | Raise e => Raise e
  end.

(** A name is its sequence of components ([Name.components]). *)
Abbreviation Name := (list string) (only parsing).

Definition components (name : Name) : list bytes := name.

(** ** Dictionaries in insertion order *)

Section dict.
Context {K V : Type} `{EqDecision K}.

Fixpoint dict_get (k : K) (d : list (K * V)) : option V :=
  match d with
  | [] => None
  | (k', v) :: d' => if decide (k' = k) then Some v else dict_get k d'
  end.

(** [d[k] = v] *)
Fixpoint dict_set (k : K) (v : V) (d : list (K * V)) : list (K * V) :=
  match d with
  | [] => [(k, v)]
  | (k', v') :: d' =>
      if decide (k' = k) then (k, v) :: d' else (k', v') :: dict_set k v d'
  end.

(** [del d[k]] for a key that is present *)
Fixpoint dict_del (k : K) (d : list (K * V)) : list (K * V) :=
  match d with
  | [] => []
  | (k', v') :: d' =>
      if decide (k' = k) then d' else (k', v') :: dict_del k d'
  end.
End dict.

(** ** [min] *)

(** [min(l, key=key)] on a non-empty sequence [best :: l]: the first element
    whose key is minimal. *)
Fixpoint min_by_key {A : Type} (key : A → Z) (best : A) (l : list A) : A :=
  match l with
  | [] => best
  | x :: l' => min_by_key key (if (key x <? key best)%Z then x else best) l'
  end.

(** [a < b] on optional datetimes: [None] is not ordered. *)
Definition datetime_lt (a b : option Z) : result bool :=
  match a, b with
  | Some x, Some y => Ok (x <? y)%Z
  | _, _ => Raise TypeError
  end.

(** [a < b] on [(int, Optional[datetime])] tuples: the first position where
    the two differ decides, with that component's own [<]. *)
Definition tuple_lt (a b : Z * option Z) : result bool :=
  if decide (a.1 = b.1) then
    if decide (a.2 = b.2) then Ok false else datetime_lt a.2 b.2
  else Ok (a.1 <? b.1)%Z.

Fixpoint min_from (best : Z * option Z) (l : list (Z * option Z))
  : result (Z * option Z) :=
  match l with
  | [] => Ok best
  | x :: l' =>
      lt ← tuple_lt x best;
      min_from (if lt : bool then x else best) l'
  end.

(** [min(l)] on a list of [(int, Optional[datetime])] tuples. *)
Definition py_min (l : list (Z * option Z)) : result (Z * option Z) :=
  match l with
  | [] => Raise ValueError
  | x :: l' => min_from x l'
  end.

(** ** [_RIBTreeNode] *)

Module RIBTree.

(** A node of the RIB tree.  [_children] is the node's dict in insertion
    order; the key of a child is the child's own [_nc], since the only
    write to [_children] is [_add_child], which stores [child] under
    [child._nc].  [_parent] records whether the parent reference is set;
    the node it refers to is the node whose [_children] holds this one. *)
Local Unset Elimination Schemes.

Inductive _RIBTreeNode : Type := RIBTreeNode {
  _collapse_shortest : bool;
  _parent : bool;
  _children : list _RIBTreeNode;
  _nc : option bytes;
  _distance_vector : list (Z * (Z * option Z))
}.

Local Set Elimination Schemes.

(** [_RIBTreeNode(nc, collapse_reduce_to_shortest)] *)
Definition __init__ (nc : option bytes) (collapse_reduce_to_shortest : bool)
  : _RIBTreeNode :=
  RIBTreeNode collapse_reduce_to_shortest false [] nc [].

Definition set_parent (p : bool) (n : _RIBTreeNode) : _RIBTreeNode :=
  RIBTreeNode (_collapse_shortest n) p (_children n) (_nc n)
    (_distance_vector n).

Definition set_children (cs : list _RIBTreeNode) (n : _RIBTreeNode)
  : _RIBTreeNode :=
  RIBTreeNode (_collapse_shortest n) (_parent n) cs (_nc n)
    (_distance_vector n).

Definition set_distance_vector (dv : list (Z * (Z * option Z)))
  (n : _RIBTreeNode) : _RIBTreeNode :=
  RIBTreeNode (_collapse_shortest n) (_parent n) (_children n) (_nc n) dv.

(** [children[k]] *)
Fixpoint children_get (k : option bytes) (cs : list _RIBTreeNode)
  : option _RIBTreeNode :=
  match cs with
  | [] => None
  | c :: cs' => if decide (_nc c = k) then Some c else children_get k cs'
  end.

(** [children[child._nc] = child] *)
Fixpoint children_set (child : _RIBTreeNode) (cs : list _RIBTreeNode)
  : list _RIBTreeNode :=
  match cs with
  | [] => [child]
  | c :: cs' =>
      if decide (_nc c = _nc child) then child :: cs'
      else c :: children_set child cs'
  end.

(** [_add_child]: [self] after the call, holding [child] with its parent
    reference set. *)
Definition _add_child (self child : _RIBTreeNode) : result _RIBTreeNode :=
  if _parent child then Raise ValueError
  else Ok (set_children (children_set (set_parent true child)
                           (_children self)) self).

(** The second loop of [insert]: one fresh node per remaining component
    below [node], and the distance vector entry at the deepest one.  The
    source links each fresh child before it goes on filling it; as the
    child is linked by reference the tree that results is the one built
    here, where the child is filled first. *)
Fixpoint insert_create (shortest : bool) (node : _RIBTreeNode)
    (comps : list bytes) (fid distance : Z) (timeout : option Z)
  : result _RIBTreeNode :=
  match comps with
  | [] =>
      Ok (set_distance_vector
            (dict_set fid (distance, timeout) (_distance_vector node)) node)
  | c :: comps' =>
      child ← insert_create shortest (__init__ (Some c) shortest) comps'
                fid distance timeout;
      _add_child node child
  end.

(** The first loop of [insert]: walk down while the next component is a
    key of [_children]; the node reached is changed in place, so every
    node on the way holds the changed child at the child's position. *)
Fixpoint insert_walk (shortest : bool) (node : _RIBTreeNode)
    (comps : list bytes) (fid distance : Z) (timeout : option Z)
  : result _RIBTreeNode :=
  match comps with
  | c :: comps' =>
      match children_get (Some c) (_children node) with
      | Some child =>
          child' ← insert_walk shortest child comps' fid distance timeout;
          Ok (set_children (children_set child' (_children node)) node)
      | None => insert_create shortest node comps fid distance timeout
      end
  | [] => insert_create shortest node [] fid distance timeout
  end.

(** [insert]: the node after the call and the outcome of the call.  The
    only exception that can leave [insert] is the one of its first line
    (see [insert_walk_total]), raised before anything is written. *)
Definition insert (self : _RIBTreeNode) (name : Name) (fid distance : Z)
    (timeout : option Z) : _RIBTreeNode * result unit :=
  if _parent self then (self, Raise ValueError)
  else
    match insert_walk (_collapse_shortest self) self (components name)
            fid distance timeout with
    | Ok self' => (self', Ok ())
    | Raise e => (self, Raise e)
    end.

(** An entry of the collapsed list: [(name, fid, dist, timeout)]. *)
Definition entry : Type := list bytes * Z * Z * option Z.

Definition e_name (c : entry) : list bytes := c.1.1.1.
Definition e_fid (c : entry) : Z := c.1.1.2.
Definition e_dist (c : entry) : Z := c.1.2.
Definition e_timeout (c : entry) : option Z := c.2.

(** [_get_best_fid] *)
Definition _get_best_fid (self : _RIBTreeNode) : result (Z * Z * option Z) :=
  match _distance_vector self with
  | [] => Raise ValueError
  | x :: l =>
      let '(fid, (dist, timeout)) := min_by_key (λ x, x.2.1) x l in
      Ok (fid, dist, timeout)
  end.

Definition nclist (self : _RIBTreeNode) : list bytes :=
  match _nc self with
  | Some nc => [nc]
  | None => []
  end.

(** The entries a node contributes for its own name (the same lines in
    both branches of [collapse]). *)
Definition own_entries (self : _RIBTreeNode) : result (list entry) :=
  if decide (0 < length (_distance_vector self)) then
    if _collapse_shortest self then
      best ← _get_best_fid self;
      Ok [(nclist self, best.1.1, best.1.2, best.2)]
    else
      Ok (map (λ x : Z * (Z * option Z), (nclist self, x.1, x.2.1, x.2.2))
            (_distance_vector self))
  else Ok [].

(** [c[0].insert(0, nc)] on each entry. *)
Definition prepend (nc : option bytes) (ch_res : list entry) : list entry :=
  match nc with
  | Some nc =>
      map (λ c : entry, (nc :: e_name c, e_fid c, e_dist c, e_timeout c))
        ch_res
  | None => ch_res
  end.

(** The last step of [collapse] at a node that has children. *)
Definition reduce (self : _RIBTreeNode) (ch_res : list entry)
  : result (list entry) :=
  let subfids : gset Z := list_to_set (map e_fid ch_res) in
  if decide (size subfids = 1 ∧ 1 < length ch_res) then
    match elements subfids with
    | sf :: _ =>
        m ← py_min (map (λ c : entry, (e_dist c, e_timeout c))
                      (filter (λ c : entry, e_fid c = sf) ch_res));
        Ok [(nclist self, sf, m.1, m.2)]
    | [] => Raise KeyError
    end
  else Ok ch_res.

Fixpoint collapse (self : _RIBTreeNode) : result (list entry) :=
  if decide (length (_children self) = 0) then own_entries self
  else
    ch_res ←
      (fix collapse_children (l : list _RIBTreeNode) : result (list entry) :=
         match l with
         | [] => Ok []
         | child :: l' =>
             r ← collapse child;
             rs ← collapse_children l';
             Ok (r ++ rs)
         end) (_children self);
    own ← own_entries self;
    reduce self (prepend (_nc self) ch_res ++ own).

(** [timeout is not None and timeout <= now] *)
Definition outdated (now : Z) (x : Z * (Z * option Z)) : bool :=
  match x.2.2 with
  | Some timeout => (timeout <=? now)%Z
  | None => false
  end.

(** The distance vector after the second and third loop of [ageing]: the
    face ids of the entries out of date are collected, then deleted one
    by one. *)
Definition expire (now : Z) (dv : list (Z * (Z * option Z)))
  : list (Z * (Z * option Z)) :=
  let todelete := map fst (filter (λ x, outdated now x = true) dv) in
  foldl (λ dv fid, dict_del fid dv) dv todelete.

(** [ageing]: the node after the call, and whether the call removed the
    node from its parent's [_children].  The first loop runs over a copy of
    the children; a child whose call ends with neither an entry nor a child
    deletes its own key from this node's [_children], any other child stays
    where it is, changed in place. *)
Fixpoint ageing (now : Z) (self : _RIBTreeNode) : _RIBTreeNode * bool :=
  let children :=
    (fix ageing_children (l : list _RIBTreeNode) : list _RIBTreeNode :=
       match l with
       | [] => []
       | child :: l' =>
           let '(child', removed) := ageing now child in
           if removed : bool then ageing_children l'
           else child' :: ageing_children l'
       end) (_children self) in
  let dv := expire now (_distance_vector self) in
  if _parent self && bool_decide (length dv = 0)
     && bool_decide (length children = 0)
  then (RIBTreeNode (_collapse_shortest self) false children (_nc self) dv,
        true)
  else (RIBTreeNode (_collapse_shortest self) (_parent self) children
          (_nc self) dv, false).

End RIBTree.

(** ** Names and packets *)

Module Packets.

(** Modelled from the spec: [PiCN.Packets] ([Name], [Packet], [Interest],
    [Content], [Nack], [NackReason]) is not among the sources.  A name is
    an ordered sequence of components, compared componentwise; [A] is a
    prefix of [B] iff [|A| ≤ |B|] and [A[i] = B[i]] for all [i < |A|]. *)
Fixpoint is_prefix_of (a b : Name) : bool :=
  match a, b with
  | [], _ => true
  | x :: a', y :: b' => bool_decide (x = y) && is_prefix_of a' b'
  | _ :: _, [] => false
  end.

(** Modelled from the spec: the reasons a Nack carries. *)
Inductive NackReason : Set :=
  | NO_CONTENT | NO_ROUTE | DUPLICATE
  | COMP_QUEUE_FULL | COMP_PARAM_UNAVAILABLE | COMP_EXCEPTION.

(** Modelled from the spec: a packet is an Interest, a Content or a Nack;
    every packet carries a name, a Content a payload (unset unless one is
    given), a Nack its reason and, once attached, the Interest it
    answers. *)
Local Unset Elimination Schemes.

Inductive Packet : Type :=
  | Interest (name : Name)
  | Content (name : Name) (content : option bytes)
  | Nack (name : Name) (reason : NackReason) (interest : option Packet).

Local Set Elimination Schemes.

Definition name (p : Packet) : Name :=
  match p with
  | Interest n => n
  | Content n _ => n
  | Nack n _ _ => n
  end.

(** Modelled from the spec: a FIB entry [(name_prefix, face_id, static)]
    ([ForwardingInformationBaseEntry] is not among the sources). *)
Record ForwardingInformationBaseEntry : Type := FibEntry {
  fib_name : Name;
  fib_faceid : Z;
  fib_static : bool
}.

End Packets.

(** ** [TreeRoutingInformationBase] *)

Module RIB.
Import Packets.

Record TreeRoutingInformationBase : Type := Rib {
  _shortest_only : bool;
  _tree : RIBTree._RIBTreeNode
}.

Definition __init__ (shortest_only : bool) : TreeRoutingInformationBase :=
  Rib shortest_only (RIBTree.__init__ None shortest_only).

(** [ageing]; [utcnow] is the value [datetime.utcnow()] returns. *)
Definition ageing (self : TreeRoutingInformationBase) (utcnow : Z)
  : TreeRoutingInformationBase :=
  Rib (_shortest_only self) (RIBTree.ageing utcnow (_tree self)).1.

Definition insert (self : TreeRoutingInformationBase) (name : Name)
    (fid distance : Z) (timeout : option Z)
  : TreeRoutingInformationBase * result unit :=
  let '(tree, r) := RIBTree.insert (_tree self) name fid distance timeout in
  (Rib (_shortest_only self) tree, r).

(** [__iter__], as the list of what it yields. *)
Definition __iter__ (self : TreeRoutingInformationBase)
  : result (list (Name * Z * Z * option Z)) :=
  collapsed ← RIBTree.collapse (_tree self);
  Ok (map (λ c : RIBTree.entry,
             (RIBTree.e_name c, RIBTree.e_fid c, RIBTree.e_dist c,
              RIBTree.e_timeout c)) collapsed).

(** [build_fib]: the RIB after the call and what the call returns. *)
Definition build_fib (self : TreeRoutingInformationBase)
  : TreeRoutingInformationBase * result (list ForwardingInformationBaseEntry) :=
  (self,
   yielded ← __iter__ self;
   Ok (map (λ y : Name * Z * Z * option Z, FibEntry y.1.1.1 y.1.1.2 false)
         yielded)).

Definition entries (self : TreeRoutingInformationBase)
  : result (list (Name * Z * Z * option Z)) :=
  __iter__ self.

Definition __len__ (self : TreeRoutingInformationBase) : result nat :=
  collapsed ← RIBTree.collapse (_tree self);
  Ok (length collapsed).

End RIB.

(** ** [collapse] and [build_fib] on the list objects they change in place *)

Module Store.
Import Packets RIBTree.

(** The list objects that hold the names of entries, by address.
    [collapse] builds each name as a list of its own ([list(nclist)]) and
    lengthens it in place on the way up ([c[0].insert(0, self._nc)]); the
    tuples of the result refer to these lists.  Nothing else that
    [collapse], [__iter__] and [build_fib] touch is written to: they
    assign to no field of a node, and the dicts of the tree are only
    read. *)
Abbreviation store := (list (list bytes)) (only parsing).

(** A step that reads and writes the store and may raise; what was
    written before an exception stays written. *)
Definition M (A : Type) : Type := store → store * result A.

#[global] Instance M_ret : MRet M := λ A a σ, (σ, Ok a).
#[global] Instance M_bind : MBind M := λ A B f m σ,
  match m σ with
  | (σ', Ok a) => f a σ'
  | (σ', Raise e) => (σ', Raise e)
  end.

(** A step that only computes. *)
Definition lift {A : Type} (r : result A) : M A := λ σ, (σ, r).

(** [list(l)]: a new list object, with its address. *)
Definition copy (l : list bytes) : M nat := λ σ, (σ ++ [l], Ok (length σ)).

(** [a.insert(0, nc)] on the list object at address [a]. *)
Definition insert0 (nc : bytes) (a : nat) : M unit :=
  λ σ, (alter (cons nc) a σ, Ok ()).

(** An entry of the collapsed list, [(name, fid, dist, timeout)], with the
    address of the list that is its name. *)
Definition entry : Type := nat * Z * Z * option Z.

Definition e_ref (c : entry) : nat := c.1.1.1.
Definition e_fid (c : entry) : Z := c.1.1.2.
Definition e_dist (c : entry) : Z := c.1.2.
Definition e_timeout (c : entry) : option Z := c.2.

(** [for (fid, (dist, timeout)) in items: result.append((list(nclist),
    fid, dist, timeout))] *)
Fixpoint append_items (nclist : list bytes) (items : list (Z * (Z * option Z)))
  : M (list entry) :=
  match items with
  | [] => mret []
  | x :: items' =>
      a ← copy nclist;
      rest ← append_items nclist items';
      mret ((a, x.1, x.2.1, x.2.2) :: rest)
  end.

(** The entries a node contributes for its own name; in
    [(list(nclist),) + self._get_best_fid()] the list is built first. *)
Definition own_entries (self : _RIBTreeNode) : M (list entry) :=
  if decide (0 < length (_distance_vector self)) then
    if _collapse_shortest self then
      a ← copy (nclist self);
      best ← lift (_get_best_fid self);
      mret [(a, best.1.1, best.1.2, best.2)]
    else append_items (nclist self) (_distance_vector self)
  else mret [].

(** [[c[0].insert(0, nc) for c in ch_res]] *)
Fixpoint insert_each (nc : bytes) (ch_res : list entry) : M unit :=
  match ch_res with
  | [] => mret ()
  | c :: ch_res' => _ ← insert0 nc (e_ref c); insert_each nc ch_res'
  end.

Definition prepend (nc : option bytes) (ch_res : list entry) : M unit :=
  match nc with
  | Some nc => insert_each nc ch_res
  | None => mret ()
  end.

(** The last step of [collapse] at a node that has children; the minimum
    is taken before the list of the single entry is built. *)
Definition reduce (self : _RIBTreeNode) (ch_res : list entry)
  : M (list entry) :=
  let subfids : gset Z := list_to_set (map e_fid ch_res) in
  if decide (size subfids = 1 ∧ 1 < length ch_res) then
    match elements subfids with
    | sf :: _ =>
        m ← lift (py_min (map (λ c : entry, (e_dist c, e_timeout c))
                            (filter (λ c : entry, e_fid c = sf) ch_res)));
        a ← copy (nclist self);
        mret [(a, sf, m.1, m.2)]
    | [] => lift (Raise KeyError)
    end
  else mret ch_res.

Fixpoint collapse (self : _RIBTreeNode) : M (list entry) :=
  if decide (length (_children self) = 0) then own_entries self
  else
    ch_res ←
      (fix collapse_children (l : list _RIBTreeNode) : M (list entry) :=
         match l with
         | [] => mret []
         | child :: l' =>
             r ← collapse child;
             rs ← collapse_children l';
             mret (r ++ rs)
         end) (_children self);
    _ ← prepend (_nc self) ch_res;
    own ← own_entries self;
    reduce self (ch_res ++ own).

(** [__iter__], as the list of what it yields; [Name(name)] is taken to
    keep the list it is given, so that a name is read where the entry
    is. *)
Definition __iter__ (self : RIB.TreeRoutingInformationBase)
  : M (list (nat * Z * Z * option Z)) :=
  collapsed ← collapse (RIB._tree self);
  mret (map (λ c : entry, (e_ref c, e_fid c, e_dist c, e_timeout c))
          collapsed).

(** [build_fib]: the entries [(name, fid, static)] of the list it
    returns, each with the address of its name. *)
Definition build_fib (self : RIB.TreeRoutingInformationBase)
  : M (list (nat * Z * bool)) :=
  yielded ← __iter__ self;
  mret (map (λ y : nat * Z * Z * option Z, (y.1.1.1, y.1.1.2, false))
          yielded).

(** The list at an address. *)
Definition deref (σ : store) (a : nat) : list bytes := default [] (σ !! a).

(** An entry with its name read from the store. *)
Definition named (σ : store) (c : entry) : RIBTree.entry :=
  (deref σ (e_ref c), e_fid c, e_dist c, e_timeout c).

(** The contents of a FIB list: its entries with their names read from
    the store. *)
Definition contents (σ : store) (fib : list (nat * Z * bool))
  : list ForwardingInformationBaseEntry :=
  map (λ e : nat * Z * bool, FibEntry (deref σ e.1.1) e.1.2 e.2) fib.

(** The loop of [collapse] over the children, as a function of its own. *)
Fixpoint collapse_children (l : list _RIBTreeNode) : M (list entry) :=
  match l with
  | [] => mret []
  | child :: l' =>
      r ← collapse child;
      rs ← collapse_children l';
      mret (r ++ rs)
  end.

(** [σ'] holds every list of [σ], unchanged, at its address. *)
Definition extends (σ σ' : store) : Prop :=
  length σ ≤ length σ' ∧ ∀ a, a < length σ → σ' !! a = σ !! a.

(** The names of the entries are pairwise distinct list objects, built
    after [σ] and held by [σ']: no two entries share a list, and none
    shares one with what was there before. *)
Definition built (σ σ' : store) (es : list entry) : Prop :=
  Forall (λ c, length σ ≤ e_ref c < length σ') es ∧ NoDup (map e_ref es).

(** A step started in [σ] agrees with an outcome given by value: it
    leaves the lists of [σ] alone and raises the same exception, or
    returns entries with lists of their own that read as the entries
    given by value. *)
Definition refines (σ : store) (out : store * result (list entry))
    (pure : result (list RIBTree.entry)) : Prop :=
  extends σ out.1
  ∧ match out.2 with
    | Ok es => built σ out.1 es ∧ pure = Ok (map (named out.1) es)
    | Raise e => pure = Raise e
    end.

End Store.

(** ** [AutoconfigServerLayer] *)

Module Autoconfig.
Import Packets.

(** What the layer calls on its link layer ([UDP4LinkLayer], not among
    the sources): both calls are taken as they are, as functions of the
    link layer's state. *)
Class LinkLayer (L : Type) : Type := {
  get_port : L → Z;
  (** [get_or_create_fid(addr, static)]: the link layer after the call
      and the face id returned *)
  get_or_create_fid : L → string * Z → bool → L * Z
}.

(** What the layer uses of its FIB ([BaseForwardingInformationBase], not
    among the sources). *)
Class ForwardingInformationBase (F : Type) : Type := {
  container : F → list ForwardingInformationBaseEntry;
  add_fib_entry : F → Name → Z → bool → F
}.

(** [Name.to_string] (not among the sources, and not fixed by the
    specification) and Python's [int] on a [str] ([Raise ValueError] where
    it raises) are taken as they are. *)
Class Strings : Type := {
  to_string : Name → string;
  int : string → result Z
}.

(** What is put on a queue, and what [data_from_lower] is handed. *)
Local Unset Elimination Schemes.

Inductive pyobj : Type :=
  | PyNone
  | PyInt (z : Z)
  | PyPacket (p : Packet)
  | PyList (items : list pyobj)
  | PyTuple (items : list pyobj).

Local Set Elimination Schemes.

Definition _AUTOCONFIG_PREFIX : Name := ["autoconfig"].
Definition _AUTOCONFIG_SERVICE_LIST_PREFIX : Name :=
  ["autoconfig"; "services"].
Definition _AUTOCONFIG_SERVICE_REGISTRATION_PREFIX : Name :=
  ["autoconfig"; "service"].

(** The line feed that ends each line of a reply *)
Definition LF : string := String (Ascii.ascii_of_nat 10) EmptyString.

(** The character [':'] *)
Definition colon : Ascii.ascii := Ascii.ascii_of_nat 58.

(** [timedelta(hours=1)] *)
Definition timedelta_hours (h : Z) : Z := (h * 3600)%Z.

Record AutoconfigServerLayer (L F : Type) : Type := Layer {
  _linklayer : L;
  _fib : F;
  _announce_addr : string;
  _broadcast_addr : string;
  _interest_to_app : bool;
  _known_services : list (Name * (string * Z) * Z);
  _service_registration_prefixes : list Name;
  _service_registration_timeout : Z
}.
Arguments Layer {L F}.
Arguments _linklayer {L F}.
Arguments _fib {L F}.
Arguments _announce_addr {L F}.
Arguments _broadcast_addr {L F}.
Arguments _interest_to_app {L F}.
Arguments _known_services {L F}.
Arguments _service_registration_prefixes {L F}.
Arguments _service_registration_timeout {L F}.

(** [bytes.decode('ascii')] *)
Fixpoint decode_ascii (b : bytes) : result string :=
  match b with
  | EmptyString => Ok EmptyString
  | String c b' =>
      if decide (Ascii.nat_of_ascii c < 128) then
        s ← decode_ascii b'; Ok (String c s)
      else Raise UnicodeDecodeError
  end.

(** [str.split(sep)] for a separator of one character *)
Fixpoint split (sep : Ascii.ascii) (s : string) : list string :=
  match s with
  | EmptyString => [EmptyString]
  | String c s' =>
      if decide (c = sep) then EmptyString :: split sep s'
      else match split sep s' with
           | p :: ps => String c p :: ps
           | [] => [String c EmptyString]
           end
  end.

Section layer.
Context {L F : Type} `{!LinkLayer L, !ForwardingInformationBase F, !Strings}.

Definition __init__ (linklayer : L) (fib : F) (address broadcast : string)
    (registration_prefixes : list Name) (interest_to_app : bool)
  : AutoconfigServerLayer L F :=
  Layer linklayer fib address broadcast interest_to_app []
    registration_prefixes (timedelta_hours 1).

Definition _handle_autoconfig (self : AutoconfigServerLayer L F)
    (interest : Packet) : Packet :=
  let port := get_port (_linklayer self) in
  let content := _announce_addr self +:+ ":" +:+ pretty port +:+ LF in
  let content :=
    foldl (λ content entry,
             content +:+ "r:" +:+ to_string (fib_name entry) +:+ LF)
      content (container (_fib self)) in
  let content :=
    foldl (λ content prefix, content +:+ "p:" +:+ to_string prefix +:+ LF)
      content (_service_registration_prefixes self) in
  Content (name interest) (Some content).

(** [_handle_service_list]; [now] is the value [datetime.now()]
    returns. *)
Definition _handle_service_list (self : AutoconfigServerLayer L F)
    (now : Z) (interest : Packet) : Packet :=
  let srvprefix : Name :=
    drop (length _AUTOCONFIG_SERVICE_LIST_PREFIX) (name interest) in
  let content :=
    foldl (λ content (known : Name * (string * Z) * Z),
             let service := known.1.1 in
             let timeout := known.2 in
             if decide (now > timeout)%Z then content
             else if bool_decide (length srvprefix = 0)
                     || is_prefix_of srvprefix service
                  then content +:+ to_string service +:+ LF
                  else content)
      EmptyString (_known_services self) in
  if decide (0 < String.length content) then
    Content (name interest) (Some content)
  else Nack (name interest) NO_CONTENT None.

(** The address [(host, int(port))] that the component [host:port]
    spells: [decode('ascii')], [split(':')] into exactly two parts,
    [int] on the second. *)
Definition remote_address (remote_bytes : bytes) : result (string * Z) :=
  remote ← decode_ascii remote_bytes;
  match split colon remote with
  | [host; port] => port ← int port; Ok (host, port)
  | _ => Raise ValueError
  end.

(** The loop of [_handle_service_registration] over the known
    services: [None] where it leaves with the Nack, else the list as
    the loop leaves it. *)
Fixpoint renew (srvname : Name) (srvaddr : string * Z) (deadline : Z)
    (known : list (Name * (string * Z) * Z))
  : option (list (Name * (string * Z) * Z)) :=
  match known with
  | [] => Some []
  | (service, addr, t) :: known' =>
      if decide (service = srvname) then
        if decide (addr ≠ srvaddr) then None
        else Some ((service, addr, deadline) :: known')
      else
        known'' ← renew srvname srvaddr deadline known';
        Some ((service, addr, t) :: known'')
  end.

(** [_handle_service_registration]: the layer after the call and the
    reply; every exception the call can raise is raised by its first
    three lines, before anything is written. *)
Definition _handle_service_registration (self : AutoconfigServerLayer L F)
    (now : Z) (interest : Packet)
  : result (AutoconfigServerLayer L F * Packet) :=
  remote_bytes ←
    match name interest !! length _AUTOCONFIG_SERVICE_REGISTRATION_PREFIX
    with
    | Some b => Ok b
    | None => Raise IndexError
    end;
  srvaddr ← remote_address remote_bytes;
  let srvname : Name :=
    drop (length _AUTOCONFIG_SERVICE_REGISTRATION_PREFIX + 1)
      (name interest) in
  if decide (length (filter (λ prefix : Name,
                               length prefix = 0
                               ∨ is_prefix_of prefix srvname = true)
                       (_service_registration_prefixes self)) = 0)
  then Ok (self, Nack (name interest) NO_ROUTE (Some interest))
  else
    match renew srvname srvaddr
            (now + _service_registration_timeout self)%Z
            (_known_services self) with
    | None => Ok (self, Nack (name interest) DUPLICATE (Some interest))
    | Some known =>
        let '(linklayer, srvfid) :=
          get_or_create_fid (_linklayer self) srvaddr true in
        let fib := add_fib_entry (_fib self) srvname srvfid true in
        Ok (Layer linklayer fib (_announce_addr self)
              (_broadcast_addr self) (_interest_to_app self) known
              (_service_registration_prefixes self)
              (_service_registration_timeout self),
            Content (name interest) None)
    end.

(** What one call puts on [to_lower] and on [to_higher], in order. *)
Record puts : Type := Puts {
  to_lower : list pyobj;
  to_higher : list pyobj
}.

(** [data_from_lower]: the layer after the call, what the call put on
    the two queues, and whether it returned or raised. *)
Definition data_from_lower (self : AutoconfigServerLayer L F) (now : Z)
    (data : pyobj) : AutoconfigServerLayer L F * puts * result unit :=
  match data with
  | PyList [PyInt fid; PyPacket packet]
  | PyTuple [PyInt fid; PyPacket packet] =>
      let passed :=
        if negb (is_prefix_of _AUTOCONFIG_PREFIX (name packet)) then
          if _interest_to_app self then Puts [] [data] else Puts [data] []
        else Puts [] [] in
      match packet with
      | Interest _ =>
          let lower1 :=
            if decide (_AUTOCONFIG_PREFIX = name packet) then
              [PyList [PyInt fid;
                       PyPacket (_handle_autoconfig self packet)]]
            else [] in
          let lower2 :=
            if is_prefix_of _AUTOCONFIG_SERVICE_LIST_PREFIX (name packet)
            then [PyList [PyInt fid;
                          PyPacket (_handle_service_list self now packet)]]
            else [] in
          let lower := to_lower passed ++ lower1 ++ lower2 in
          if is_prefix_of _AUTOCONFIG_SERVICE_REGISTRATION_PREFIX
               (name packet)
          then
            match _handle_service_registration self now packet with
            | Ok (self', reply) =>
                (self',
                 Puts (lower ++ [PyList [PyInt fid; PyPacket reply]])
                   (to_higher passed),
                 Ok ())
            | Raise e => (self, Puts lower (to_higher passed), Raise e)
            end
          else (self, Puts lower (to_higher passed), Ok ())
      | _ => (self, passed, Ok ())
      end
  | _ => (self, Puts [] [], Ok ())
  end.

Definition data_from_higher (self : AutoconfigServerLayer L F)
    (data : pyobj) : AutoconfigServerLayer L F * puts * result unit :=
  (self, Puts [data] [], Ok ()).

End layer.

End Autoconfig.

(** ** An instance of the layer's collaborators

    Used where a property is evaluated on concrete packets. *)

Module Reference.
Import Packets Autoconfig.

(** Modelled from the spec: the link layer's face table ([UDP4LinkLayer]
    is not among the sources).  Each remote address has one stable face
    id; asking for the face of a known address reuses it, asking for an
    unknown one allocates the next id. *)
Record FaceTable : Type := Faces {
  port : Z;
  faces : list (string * Z * Z * bool)
}.

Fixpoint find_face (addr : string * Z) (l : list (string * Z * Z * bool))
  : option Z :=
  match l with
  | [] => None
  | (host, p, fid, _) :: l' =>
      if decide ((host, p) = addr) then Some fid else find_face addr l'
  end.

#[global] Instance face_table_link_layer : LinkLayer FaceTable := {|
  get_port ll := port ll;
  get_or_create_fid ll addr static :=
    match find_face addr (faces ll) with
    | Some fid => (ll, fid)
    | None =>
        let fid := Z.of_nat (length (faces ll)) in
        (Faces (port ll) (faces ll ++ [(addr.1, addr.2, fid, static)]), fid)
    end
|}.

(** Modelled from the spec: a FIB as the list of its entries
    ([BaseForwardingInformationBase] is not among the sources), with at
    most one entry per [(prefix, face_id)] pair. *)
Definition same_route (n : Name) (fid : Z) (e : ForwardingInformationBaseEntry)
  : bool :=
  bool_decide (fib_name e = n) && bool_decide (fib_faceid e = fid).

#[global] Instance list_fib
  : ForwardingInformationBase (list ForwardingInformationBaseEntry) := {|
  container fib := fib;
  add_fib_entry fib n fid static :=
    if existsb (same_route n fid) fib then fib
    else fib ++ [FibEntry n fid static]
|}.

(** Modelled from the spec: a name is written with a slash before each
    component, as in the manifest lines [r:/global] and [pl:/test]. *)
Fixpoint slashed (n : Name) : string :=
  match n with
  | [] => EmptyString
  | c :: n' => "/" +:+ c +:+ slashed n'
  end.

(** Python's [int] on an ASCII [str], which is what [decode('ascii')]
    hands it: white space around the literal is skipped, a sign may come
    first, and single underscores may stand between two digits; anything
    else raises [ValueError], as does a literal of more than 4300 digits
    (the limit CPython sets unless it is configured otherwise). *)
Definition is_space (c : Ascii.ascii) : bool :=
  let n := Ascii.nat_of_ascii c in
  bool_decide (9 ≤ n ≤ 13) || bool_decide (n = 32).

Fixpoint lstrip (s : string) : string :=
  match s with
  | EmptyString => EmptyString
  | String c s' => if is_space c then lstrip s' else s
  end.

Fixpoint blank (s : string) : bool :=
  match s with
  | EmptyString => true
  | String c s' => is_space c && blank s'
  end.

(** The digits of the literal, from the value [acc] of the [count] digits
    read so far; [digit] says that the character before was a digit. *)
Fixpoint decimal (acc : Z) (count : nat) (digit : bool) (s : string)
  : result Z :=
  match s with
  | EmptyString =>
      if digit && bool_decide (count ≤ 4300) then Ok acc else Raise ValueError
  | String c s' =>
      let n := Ascii.nat_of_ascii c in
      if decide (48 ≤ n ≤ 57) then
        decimal (acc * 10 + (Z.of_nat n - 48))%Z (S count) true s'
      else if decide (n = 95) then
        if digit then decimal acc count false s' else Raise ValueError
      else if digit && blank s && bool_decide (count ≤ 4300) then Ok acc
      else Raise ValueError
  end.

Definition python_int (s : string) : result Z :=
  match lstrip s with
  | EmptyString => Raise ValueError
  | String c s' =>
      if decide (Ascii.nat_of_ascii c = 43) then decimal 0 0 false s'
      else if decide (Ascii.nat_of_ascii c = 45) then
        n ← decimal 0 0 false s'; Ok (- n)%Z
      else decimal 0 0 false (String c s')
  end.

#[global] Instance strings : Strings := {|
  to_string := slashed;
  int := python_int
|}.

(** A forwarder's layer as [ICNForwarder] sets it up, with the
    registration prefix [/test] and an empty face table and FIB. *)
Definition server (interest_to_app : bool)
  : AutoconfigServerLayer FaceTable (list ForwardingInformationBaseEntry) :=
  __init__ (Faces 9000 []) [] "127.0.0.1" "127.255.255.255" [["test"]]
    interest_to_app.

(** The Interest by which the repository at [127.0.1.1:1337] registers
    the service [/test/repo]. *)
Definition registration_request : Packet :=
  Interest ["autoconfig"; "service"; "127.0.1.1:1337"; "test"; "repo"].

(** A layer that knows two services, the lease of the first of which ran
    out at time 50. *)
Definition two_services
  : AutoconfigServerLayer FaceTable (list ForwardingInformationBaseEntry) :=
  Layer (Faces 9000 []) [] "127.0.0.1" "127.255.255.255" false
    [(["test"; "repo"], ("127.0.1.1", 1337%Z), 50%Z);
     (["test"; "old"], ("127.0.1.2", 1337%Z), 150%Z)] [["test"]] 3600.

End Reference.
(** ** Notions the properties of the layer are stated with *)

Module AutoconfigSpec.
Import Packets Autoconfig.

(** A [face id, packet] message as the layer expects it from below: a
    list or a tuple of the two. *)
Definition well_formed (data : pyobj) (fid : Z) (packet : Packet) : Prop :=
  data = PyList [PyInt fid; PyPacket packet]
  ∨ data = PyTuple [PyInt fid; PyPacket packet].

Definition is_interest (packet : Packet) : bool :=
  match packet with
  | Interest _ => true
  | _ => false
  end.

(** The text that lists the given strings, one per line. *)
Fixpoint lines (l : list string) : string :=
  match l with
  | [] => EmptyString
  | s :: l' => s +:+ LF +:+ lines l'
  end.

Definition service_name (known : Name * (string * Z) * Z) : Name :=
  known.1.1.
Definition service_addr (known : Name * (string * Z) * Z) : string * Z :=
  known.1.2.
Definition lease_deadline (known : Name * (string * Z) * Z) : Z := known.2.

(** The known-service list is keyed by service name. *)
Definition keyed (known : list (Name * (string * Z) * Z)) : Prop :=
  NoDup (map service_name known).

(** The name lies under some configured registration prefix. *)
Definition registrable (prefixes : list Name) (srvname : Name) : Prop :=
  ∃ prefix, prefix ∈ prefixes ∧ is_prefix_of prefix srvname = true.

(** The text of the reply to [/autoconfig]: the announced address and the
    port of the link layer, a line [r:] per entry of the FIB, a line [p:]
    per registration prefix. *)
Definition manifest {L F : Type}
    `{!LinkLayer L, !ForwardingInformationBase F, !Strings}
    (self : AutoconfigServerLayer L F) : string :=
  lines ((_announce_addr self +:+ ":" +:+ pretty (get_port (_linklayer self)))
         :: map (λ entry, "r:" +:+ to_string (fib_name entry))
              (container (_fib self))
         ++ map (λ prefix, "p:" +:+ to_string prefix)
              (_service_registration_prefixes self)).

(** The number of colons of a string. *)
Fixpoint colons (s : string) : nat :=
  match s with
  | EmptyString => 0
  | String c s' => (if decide (c = colon) then 1 else 0) + colons s'
  end.

(** Every byte of the string is below 128. *)
Fixpoint ascii_only (s : string) : bool :=
  match s with
  | EmptyString => true
  | String c s' => bool_decide (Ascii.nat_of_ascii c < 128) && ascii_only s'
  end.


End AutoconfigSpec.

(** ** Notions the properties of the RIB are stated with *)

Module RIBSpec.
Import Packets RIBTree.

(** The invariants of a tree of nodes: the keys of a distance vector and
    the keys of [_children] are pairwise distinct, as in any dict, and
    every node held in some [_children] has a name component and its
    parent reference set. *)
Fixpoint wfb (n : _RIBTreeNode) : bool :=
  bool_decide (NoDup (map fst (_distance_vector n)))
  && bool_decide (NoDup (map _nc (_children n)))
  && forallb (λ c, _parent c && bool_decide (is_Some (_nc c)) && wfb c)
       (_children n).

Definition wf (n : _RIBTreeNode) : Prop := wfb n = true.

(** A node and all nodes below it. *)
Fixpoint nodes (n : _RIBTreeNode) : list _RIBTreeNode :=
  n :: flat_map nodes (_children n).

(** The nodes below a node: the nodes that have a parent in its tree. *)
Definition descendants (n : _RIBTreeNode) : list _RIBTreeNode :=
  flat_map nodes (_children n).

(** A route as [insert] takes it: [(name, fid, distance, timeout)]. *)
Definition route : Type := Name * Z * Z * option Z.

(** The RIB after a sequence of insertions. *)
Definition insert_all (rib : RIB.TreeRoutingInformationBase)
    (routes : list route) : RIB.TreeRoutingInformationBase :=
  foldl (λ rib (r : route), (RIB.insert rib r.1.1.1 r.1.1.2 r.1.2 r.2).1)
    rib routes.

Definition strict_prefix (a b : Name) : Prop :=
  is_prefix_of a b = true ∧ a ≠ b.

(** No entry's name is a strict prefix of the name of another entry with
    the same face id. *)
Definition prefix_minimal (res : list entry) : Prop :=
  ∀ e1 e2, e1 ∈ res → e2 ∈ res → e_fid e1 = e_fid e2 →
           ¬ strict_prefix (e_name e1) (e_name e2).

(** The candidates of a node: what its children collapse to, under the
    node's own name component, and then its own entries. *)
Fixpoint collapse_children (l : list _RIBTreeNode) : result (list entry) :=
  match l with
  | [] => Ok []
  | child :: l' =>
      r ← collapse child;
      rs ← collapse_children l';
      Ok (r ++ rs)
  end.

Definition candidates (n : _RIBTreeNode) : result (list entry) :=
  ch_res ← collapse_children (_children n);
  own ← own_entries n;
  Ok (prepend (_nc n) ch_res ++ own).

(** The loop of [ageing] over the children, as a function of its own. *)
Fixpoint ageing_children (now : Z) (l : list _RIBTreeNode)
  : list _RIBTreeNode :=
  match l with
  | [] => []
  | child :: l' =>
      let '(child', removed) := ageing now child in
      if removed : bool then ageing_children now l'
      else child' :: ageing_children now l'
  end.

(** A name under a node's own name component, as [collapse] returns the
    names of the node's children. *)
Definition below (nc : option bytes) (name : Name) : Name :=
  match nc with
  | Some k => k :: name
  | None => name
  end.

(** No entry of the distance vector is out of date at [now]. *)
Definition fresh (now : Z) (n : _RIBTreeNode) : Prop :=
  ∀ fid dist timeout,
    (fid, (dist, Some timeout)) ∈ _distance_vector n → (now < timeout)%Z.

(** The node has neither an entry in its distance vector nor a child. *)
Definition empty_leaf (n : _RIBTreeNode) : Prop :=
  _distance_vector n = [] ∧ _children n = [].

(** The routes of three insertions: [/a] and [/a/b] by face 1, [/a/c] by
    face 2. *)
Definition three_routes : list route :=
  [(["a"], 1%Z, 1%Z, None);
   (["a"; "b"], 1%Z, 1%Z, None);
   (["a"; "c"], 2%Z, 1%Z, None)].

(** Two routes by face 1 at the same distance, one without timeout and
    one that times out at 5. *)
Definition mixed_timeouts : list route :=
  [(["a"; "b"], 1%Z, 1%Z, None);
   (["a"; "c"], 1%Z, 1%Z, Some 5%Z)].

(** The node that a path of name components leads to, from a node. *)
Fixpoint find_node (n : _RIBTreeNode) (path : Name) : option _RIBTreeNode :=
  match path with
  | [] => Some n
  | c :: path' =>
      child ← children_get (Some c) (_children n);
      find_node child path'
  end.

(** The route to a name by a face, as the tree holds it: its distance and
    its timeout. *)
Definition route_of (n : _RIBTreeNode) (name : Name) (fid : Z)
  : option (Z * option Z) :=
  node ← find_node n name;
  dict_get fid (_distance_vector node).

(** What [ageing(now)] leaves of a route. *)
Definition live (now : Z) (r : option (Z * option Z))
  : option (Z * option Z) :=
  match r with
  | Some (dist, Some timeout) =>
      if (timeout <=? now)%Z then None else Some (dist, Some timeout)
  | _ => r
  end.


End RIBSpec.

(** * Properties *)

(** ** Names *)

Section names.
Import Packets.

Lemma is_prefix_of_prefix (a b : Name) :
  is_prefix_of a b = true ↔ a `prefix_of` b.
Proof.
  revert b. induction a as [|x a IH]; intros [|y b]; simpl.
  - split; [intros _; apply prefix_nil | done].
  - split; [intros _; apply prefix_nil | done].
  - split; [done | intros H; by apply prefix_nil_not in H].
  - rewrite andb_true_iff, bool_decide_eq_true, IH. split.
    + intros [-> H]. by apply prefix_cons.
    + intros H. split; [by eapply prefix_cons_inv_1 | by eapply prefix_cons_inv_2].
Qed.

Lemma is_prefix_of_app (a k : Name) : is_prefix_of a (a ++ k) = true.
Proof. apply is_prefix_of_prefix. by exists k. Qed.

(** The function agrees with the specification's wording of prefix-of. *)
Lemma is_prefix_of_spec (a b : Name) :
  is_prefix_of a b = true ↔
  length a ≤ length b ∧ ∀ i, i < length a → a !! i = b !! i.
Proof.
  rewrite is_prefix_of_prefix. split.
  - intros [k ->]. rewrite length_app. split; [lia|].
    intros i Hi. by rewrite lookup_app_l.
  - intros [Hlen Hi]. exists (drop (length a) b).
    rewrite <- (take_drop (length a) b) at 1. f_equal.
    apply list_eq. intros i. destruct (decide (i < length a)) as [Hlt|Hge].
    + by rewrite lookup_take_lt, Hi.
    + rewrite lookup_take_ge by lia. symmetry. apply lookup_ge_None. lia.
Qed.

Lemma is_prefix_of_trans (a b c : Name) :
  is_prefix_of a b = true → is_prefix_of b c = true →
  is_prefix_of a c = true.
Proof. rewrite !is_prefix_of_prefix. by intros ? ?; etrans. Qed.

Lemma is_prefix_of_nil (b : Name) : is_prefix_of [] b = true.
Proof. by destruct b. Qed.
End names.

(** ** The autoconfig server layer *)

Section autoconfig.
Import Packets Autoconfig AutoconfigSpec.
Context {L F : Type} `{!LinkLayer L, !ForwardingInformationBase F, !Strings}.
Implicit Types (self : AutoconfigServerLayer L F) (data : pyobj)
  (packet : Packet).

Lemma not_autoconfig (n : Name) :
  is_prefix_of _AUTOCONFIG_PREFIX n = false →
  _AUTOCONFIG_PREFIX ≠ n
  ∧ is_prefix_of _AUTOCONFIG_SERVICE_LIST_PREFIX n = false
  ∧ is_prefix_of _AUTOCONFIG_SERVICE_REGISTRATION_PREFIX n = false.
Proof.
  intros Hn. repeat split.
  - intros <-. done.
  - destruct (is_prefix_of _AUTOCONFIG_SERVICE_LIST_PREFIX n) eqn:E; [|done].
    rewrite <- Hn. symmetry.
    by apply (is_prefix_of_trans _ _AUTOCONFIG_SERVICE_LIST_PREFIX).
  - destruct (is_prefix_of _AUTOCONFIG_SERVICE_REGISTRATION_PREFIX n) eqn:E;
      [|done].
    rewrite <- Hn. symmetry.
    by apply (is_prefix_of_trans _ _AUTOCONFIG_SERVICE_REGISTRATION_PREFIX).
Qed.

(** What [data_from_lower] does with a message of the expected shape
    does not depend on whether it is a list or a tuple, except for the
    message itself being passed on. *)
Lemma data_from_lower_tuple self now fid packet :
  is_prefix_of _AUTOCONFIG_PREFIX (name packet) = true →
  data_from_lower self now (PyTuple [PyInt fid; PyPacket packet])
  = data_from_lower self now (PyList [PyInt fid; PyPacket packet]).
Proof. intros Hp. unfold data_from_lower. by rewrite Hp. Qed.

(** C6: a well-formed [face id, packet] message from below whose name is
    not under [/autoconfig] leaves the layer as that very message, on the
    higher queue if [interest_to_app] is set and on the lower queue
    otherwise; nothing else is put on either queue, and the layer is
    unchanged. *)
Theorem pass_through self now data fid packet :
  well_formed data fid packet →
  is_prefix_of _AUTOCONFIG_PREFIX (name packet) = false →
  data_from_lower self now data
  = (self,
     if _interest_to_app self then Puts [] [data] else Puts [data] [],
     Ok ()).
Proof.
  intros Hwf Hn.
  destruct (not_autoconfig _ Hn) as (Hne & Hlist & Hreg).
  destruct Hwf as [-> | ->]; unfold data_from_lower;
    rewrite Hn, Hlist, Hreg; simpl;
    destruct packet; try done;
    (rewrite decide_False by done);
    by destruct (_interest_to_app self); simpl; rewrite ?app_nil_r.
Qed.

(** C10: a Content or a Nack from below whose name is under [/autoconfig]
    is consumed: nothing is put on either queue and the layer (its FIB,
    its face table, its known services) is unchanged. *)
Theorem autoconfig_reply_consumed self now data fid packet :
  well_formed data fid packet →
  is_interest packet = false →
  is_prefix_of _AUTOCONFIG_PREFIX (name packet) = true →
  data_from_lower self now data = (self, Puts [] [], Ok ()).
Proof.
  intros [-> | ->] Hk Hn; unfold data_from_lower; rewrite Hn;
    by destruct packet.
Qed.
(** *** The service list *)

Lemma str_app_assoc (a b c : string) : (a +:+ b) +:+ c = a +:+ b +:+ c.
Proof.
  induction a as [|x a IH]; [done|].
  change (String x ((a +:+ b) +:+ c) = String x (a +:+ b +:+ c)).
  by rewrite IH.
Qed.

Lemma str_app_nil_r (a : string) : a +:+ EmptyString = a.
Proof.
  induction a as [|x a IH]; [done|].
  change (String x (a +:+ EmptyString) = String x a). by rewrite IH.
Qed.

Lemma lines_empty (l : list string) :
  String.length (lines l) = 0 ↔ l = [].
Proof.
  destruct l as [|s l]; [done|]. split; [|done]. simpl.
  induction s as [|x s IH]; done.
Qed.

(** The loop of [_handle_service_list] appends the line of each known
    service that is not out of date and lies under the prefix. *)
Lemma service_list_loop (now : Z) (srvprefix : Name)
    (known : list (Name * (string * Z) * Z)) (content : string) :
  foldl (λ content (known : Name * (string * Z) * Z),
           let service := known.1.1 in
           let timeout := known.2 in
           if decide (now > timeout)%Z then content
           else if bool_decide (length srvprefix = 0)
                   || is_prefix_of srvprefix service
                then content +:+ to_string service +:+ LF
                else content)
    content known
  = content +:+
    lines (map (λ k, to_string (service_name k))
             (filter (λ k, (now ≤ lease_deadline k)%Z
                           ∧ is_prefix_of srvprefix (service_name k) = true)
                known)).
Proof.
  revert content. induction known as [|k known IH]; intros content; simpl.
  - by rewrite str_app_nil_r.
  - rewrite IH. clear IH. rewrite filter_cons.
    unfold lease_deadline, service_name.
    destruct (decide (now > k.2)%Z) as [Hlate|Hintime].
    + rewrite decide_False by (intros []; lia). done.
    + assert (bool_decide (length srvprefix = 0)
              || is_prefix_of srvprefix k.1.1
              = is_prefix_of srvprefix k.1.1) as ->.
      { case_bool_decide as Hlen; [|done]. simpl.
        apply nil_length_inv in Hlen. subst srvprefix.
        by rewrite is_prefix_of_nil. }
      destruct (is_prefix_of srvprefix k.1.1) eqn:Hp.
      * rewrite decide_True by (split; [lia|done]). simpl.
        by rewrite !str_app_assoc.
      * rewrite decide_False by (intros []; done). done.
Qed.

(** C8: an Interest for [/autoconfig/services/<prefix>] is answered, on
    the lower queue and towards the face it came from, with a Content
    that lists one per line the known services whose lease deadline has
    not passed and whose name has [<prefix>] as a prefix (all of those
    not out of date when [<prefix>] is empty), and with Nack(NO_CONTENT)
    when there is none. *)
Theorem service_list_reply self now data fid (prefix : Name) :
  let n := _AUTOCONFIG_SERVICE_LIST_PREFIX ++ prefix in
  let listed :=
    filter (λ k, (now ≤ lease_deadline k)%Z
                 ∧ is_prefix_of prefix (service_name k) = true)
      (_known_services self) in
  well_formed data fid (Interest n) →
  data_from_lower self now data
  = (self,
     Puts [PyList [PyInt fid;
                   PyPacket
                     (match listed with
                      | [] => Nack n NO_CONTENT None
                      | _ :: _ =>
                          Content n
                            (Some (lines (map (λ k, to_string (service_name k))
                                            listed)))
                      end)]] [],
     Ok ()).
Proof.
  intros n listed Hwf.
  assert (data_from_lower self now data
          = data_from_lower self now (PyList [PyInt fid; PyPacket (Interest n)]))
    as ->.
  { destruct Hwf as [-> | ->]; [done|]. by apply data_from_lower_tuple. }
  unfold data_from_lower. cbn [name].
  change (is_prefix_of _AUTOCONFIG_PREFIX n) with true.
  change (is_prefix_of _AUTOCONFIG_SERVICE_LIST_PREFIX n) with true.
  change (is_prefix_of _AUTOCONFIG_SERVICE_REGISTRATION_PREFIX n) with false.
  rewrite decide_False by done. cbn [negb to_lower to_higher app].
  do 4 f_equal. unfold _handle_service_list. cbn [name].
  change (drop (length _AUTOCONFIG_SERVICE_LIST_PREFIX) n) with prefix.
  rewrite service_list_loop. fold listed.
  change (EmptyString +:+ ?s) with s. clearbody listed.
  destruct (decide (0 < String.length
              (lines (map (λ k, to_string (service_name k)) listed))))
    as [Hpos|Hzero].
  - destruct listed; [simpl in Hpos; lia | done].
  - assert (listed = []) as ->; [|done].
    destruct listed as [|k rest]; [done|]. exfalso. apply Hzero.
    assert (String.length (lines (map (λ k, to_string (service_name k))
                                    (k :: rest))) ≠ 0); [|lia].
    by rewrite lines_empty.
Qed.

(** *** Service registration *)

Lemma map_fmap {A B : Type} (f : A → B) (l : list A) : map f l = f <$> l.
Proof. done. Qed.

(** Where the loop over the known services leaves with the Nack: at the
    first entry of that name, when its address is another one. *)
Lemma renew_None srvname srvaddr deadline
    (known : list (Name * (string * Z) * Z)) :
  keyed known →
  (∃ k, k ∈ known ∧ service_name k = srvname ∧ service_addr k ≠ srvaddr) →
  renew srvname srvaddr deadline known = None.
Proof.
  unfold keyed. induction known as [|[[service addr] t] known IH];
    intros Hkeyed (k & Hin & Hname & Haddr).
  - by apply elem_of_nil in Hin.
  - simpl in Hkeyed. apply NoDup_cons in Hkeyed as [Hfresh Hkeyed]. simpl.
    apply elem_of_cons in Hin as [-> | Hin].
    + unfold service_name, service_addr in *. simpl in *.
      rewrite decide_True by done. by rewrite decide_True.
    + destruct (decide (service = srvname)) as [Heq | Hne].
      * exfalso. apply Hfresh. rewrite map_fmap.
        apply list_elem_of_fmap. exists k. split; [by rewrite Hname | done].
      * rewrite IH; [done | done | by exists k].
Qed.

(** Where it does not: the first entry of that name, if there is one, has
    its deadline renewed in place; a name that is not known leaves the
    list as it is. *)
Lemma renew_unknown srvname srvaddr deadline
    (known : list (Name * (string * Z) * Z)) :
  srvname ∉ map service_name known →
  renew srvname srvaddr deadline known = Some known.
Proof.
  induction known as [|[[service addr] t] known IH]; intros Hnot; [done|].
  simpl in *. apply not_elem_of_cons in Hnot as [Hne Hnot].
  unfold service_name in Hne. simpl in Hne.
  rewrite decide_False by done. by rewrite IH.
Qed.

Lemma renew_keeps_names srvname srvaddr deadline
    (known known' : list (Name * (string * Z) * Z)) :
  renew srvname srvaddr deadline known = Some known' →
  map service_name known' = map service_name known
  ∧ map service_addr known' = map service_addr known.
Proof.
  revert known'. induction known as [|[[service addr] t] known IH];
    intros known' Hrenew; simpl in Hrenew.
  - by simplify_eq.
  - destruct (decide (service = srvname)).
    + destruct (decide (addr ≠ srvaddr)); by simplify_eq.
    + destruct (renew srvname srvaddr deadline known) as [known''|] eqn:E;
        simplify_eq/=.
      destruct (IH _ eq_refl) as [-> ->]. done.
Qed.

Lemma registrable_filter (prefixes : list Name) (srvname : Name) :
  registrable prefixes srvname ↔
  length (filter (λ prefix : Name,
                    length prefix = 0 ∨ is_prefix_of prefix srvname = true)
            prefixes) ≠ 0.
Proof.
  unfold registrable. split.
  - intros (prefix & Hin & Hp) Hlen. apply nil_length_inv in Hlen.
    assert (prefix ∈ filter (λ prefix : Name,
              length prefix = 0 ∨ is_prefix_of prefix srvname = true)
              prefixes) as Hin'.
    { apply list_elem_of_filter. auto. }
    rewrite Hlen in Hin'. by apply elem_of_nil in Hin'.
  - intros Hlen.
    destruct (filter (λ prefix : Name,
                length prefix = 0 ∨ is_prefix_of prefix srvname = true)
                prefixes) as [|prefix rest] eqn:E; [done|].
    assert (prefix ∈ prefix :: rest) as Hin by apply list_elem_of_here.
    rewrite <- E in Hin. apply list_elem_of_filter in Hin as [Hp Hin].
    exists prefix. split; [done|]. destruct Hp as [Hnil|Hp]; [|done].
    apply nil_length_inv in Hnil as ->. apply is_prefix_of_nil.
Qed.

(** A registration Interest reaches [_handle_service_registration] and
    nothing else. *)
Lemma data_from_lower_registration self now data fid (rest : Name) :
  let n := _AUTOCONFIG_SERVICE_REGISTRATION_PREFIX ++ rest in
  well_formed data fid (Interest n) →
  data_from_lower self now data
  = match _handle_service_registration self now (Interest n) with
    | Ok (self', reply) =>
        (self', Puts [PyList [PyInt fid; PyPacket reply]] [], Ok ())
    | Raise e => (self, Puts [] [], Raise e)
    end.
Proof.
  intros n Hwf.
  assert (data_from_lower self now data
          = data_from_lower self now (PyList [PyInt fid; PyPacket (Interest n)]))
    as ->.
  { destruct Hwf as [-> | ->]; [done|]. by apply data_from_lower_tuple. }
  unfold data_from_lower. cbn [name].
  change (is_prefix_of _AUTOCONFIG_PREFIX n) with true.
  change (is_prefix_of _AUTOCONFIG_SERVICE_REGISTRATION_PREFIX n) with true.
  assert (is_prefix_of _AUTOCONFIG_SERVICE_LIST_PREFIX n = false) as ->.
  { subst n. by destruct rest. }
  rewrite decide_False by done. done.
Qed.

(** C4, as amended: a registration Interest whose remote component reads
    as [host:port] ([remote_address] returns) and whose service name lies
    under no configured registration prefix is answered with
    Nack(NO_ROUTE); one whose service name is known at another remote
    address, with Nack(DUPLICATE); either Nack carries the Interest, and
    the layer (its FIB, its face table, its known services) is
    unchanged. *)
Theorem registration_refused self now data fid (remote : bytes)
    (srvname : Name) (srvaddr : string * Z) :
  let n := _AUTOCONFIG_SERVICE_REGISTRATION_PREFIX ++ remote :: srvname in
  let nack reason :=
    (self,
     Puts [PyList [PyInt fid; PyPacket (Nack n reason (Some (Interest n)))]]
       [],
     Ok ()) in
  well_formed data fid (Interest n) →
  remote_address remote = Ok srvaddr →
  (¬ registrable (_service_registration_prefixes self) srvname →
   data_from_lower self now data = nack NO_ROUTE)
  ∧ (registrable (_service_registration_prefixes self) srvname →
     keyed (_known_services self) →
     (∃ k, k ∈ _known_services self ∧ service_name k = srvname
           ∧ service_addr k ≠ srvaddr) →
     data_from_lower self now data = nack DUPLICATE).
Proof.
  intros n nack Hwf Hremote.
  rewrite (data_from_lower_registration self now data fid (remote :: srvname))
    by done.
  fold n. unfold _handle_service_registration. cbn [name].
  change (n !! length _AUTOCONFIG_SERVICE_REGISTRATION_PREFIX)
    with (Some remote).
  change (drop (length _AUTOCONFIG_SERVICE_REGISTRATION_PREFIX + 1) n)
    with srvname.
  cbn [mbind result_bind]. rewrite Hremote. cbn [mbind result_bind]. split.
  - intros Hnot. rewrite decide_True; [done|].
    destruct (decide (length (filter (λ prefix : Name,
                length prefix = 0 ∨ is_prefix_of prefix srvname = true)
                (_service_registration_prefixes self)) = 0)); [done|].
    exfalso. by apply Hnot, registrable_filter.
  - intros Hreg Hkeyed Hdup. rewrite decide_False by by apply registrable_filter.
    by rewrite renew_None.
Qed.

(** An accepted registration: the face of the remote address is allocated
    or reused as a static face, the static FIB entry is added, the reply
    is a Content without payload, and the known services are as the loop
    leaves them. *)
Lemma registration_accepted self now data fid (remote : bytes)
    (srvname : Name) (srvaddr : string * Z)
    (known : list (Name * (string * Z) * Z)) :
  let n := _AUTOCONFIG_SERVICE_REGISTRATION_PREFIX ++ remote :: srvname in
  let face := get_or_create_fid (_linklayer self) srvaddr true in
  well_formed data fid (Interest n) →
  remote_address remote = Ok srvaddr →
  registrable (_service_registration_prefixes self) srvname →
  renew srvname srvaddr (now + _service_registration_timeout self)
    (_known_services self) = Some known →
  data_from_lower self now data
  = (Layer face.1 (add_fib_entry (_fib self) srvname face.2 true)
       (_announce_addr self) (_broadcast_addr self) (_interest_to_app self)
       known (_service_registration_prefixes self)
       (_service_registration_timeout self),
     Puts [PyList [PyInt fid; PyPacket (Content n None)]] [],
     Ok ()).
Proof.
  intros n face Hwf Hremote Hreg Hrenew.
  rewrite (data_from_lower_registration self now data fid (remote :: srvname))
    by done.
  fold n. unfold _handle_service_registration. cbn [name].
  change (n !! length _AUTOCONFIG_SERVICE_REGISTRATION_PREFIX)
    with (Some remote).
  change (drop (length _AUTOCONFIG_SERVICE_REGISTRATION_PREFIX + 1) n)
    with srvname.
  cbn [mbind result_bind]. rewrite Hremote. cbn [mbind result_bind].
  rewrite decide_False by by apply registrable_filter.
  rewrite Hrenew. subst face.
  by destruct (get_or_create_fid (_linklayer self) srvaddr true).
Qed.

(** The registration of a service that is not known yet is accepted, and
    leaves the known services as they were: no lease is recorded. *)
Lemma registration_unknown_not_recorded self now data fid (remote : bytes)
    (srvname : Name) (srvaddr : string * Z) :
  let n := _AUTOCONFIG_SERVICE_REGISTRATION_PREFIX ++ remote :: srvname in
  well_formed data fid (Interest n) →
  remote_address remote = Ok srvaddr →
  registrable (_service_registration_prefixes self) srvname →
  srvname ∉ map service_name (_known_services self) →
  (data_from_lower self now data).1.2
  = Puts [PyList [PyInt fid; PyPacket (Content n None)]] []
  ∧ _known_services (data_from_lower self now data).1.1
    = _known_services self.
Proof.
  intros n Hwf Hremote Hreg Hnew.
  by rewrite (registration_accepted self now data fid remote srvname srvaddr
                (_known_services self)) by auto using renew_unknown.
Qed.

(** *** The reply to [/autoconfig] *)

Lemma lines_app (a b : list string) : lines (a ++ b) = lines a +:+ lines b.
Proof.
  induction a as [|x a IH]; [done|]. cbn [app lines].
  by rewrite IH, !str_app_assoc.
Qed.

Lemma manifest_loop {A : Type} (tag : string) (f : A → string) (l : list A)
    (content : string) :
  foldl (λ content x, content +:+ tag +:+ f x +:+ LF) content l
  = content +:+ lines (map (λ x, tag +:+ f x) l).
Proof.
  revert content. induction l as [|x l IH]; intros content; cbn [foldl map lines].
  - by rewrite str_app_nil_r.
  - by rewrite IH, !str_app_assoc.
Qed.

Lemma handle_autoconfig_manifest self interest :
  _handle_autoconfig self interest
  = Content (name interest) (Some (manifest self)).
Proof.
  unfold _handle_autoconfig, manifest. do 2 f_equal.
  rewrite !manifest_loop. cbn [lines]. rewrite lines_app.
  by rewrite !str_app_assoc.
Qed.

(** X12: an Interest for exactly [/autoconfig] is answered, on the lower
    queue and towards the face it came from, with one Content of that
    name whose payload is the line [<address>:<port>], then a line
    [r:<name>] per entry of the FIB in the FIB's order, then a line
    [p:<name>] per registration prefix; the layer is unchanged. *)
Theorem autoconfig_manifest_reply self now data fid :
  well_formed data fid (Interest _AUTOCONFIG_PREFIX) →
  data_from_lower self now data
  = (self,
     Puts [PyList [PyInt fid;
                   PyPacket (Content _AUTOCONFIG_PREFIX
                               (Some (manifest self)))]] [],
     Ok ()).
Proof.
  intros Hwf.
  assert (data_from_lower self now data
          = data_from_lower self now
              (PyList [PyInt fid; PyPacket (Interest _AUTOCONFIG_PREFIX)]))
    as ->.
  { destruct Hwf as [-> | ->]; [done|]. by apply data_from_lower_tuple. }
  unfold data_from_lower. cbn [name].
  change (is_prefix_of _AUTOCONFIG_PREFIX _AUTOCONFIG_PREFIX) with true.
  change (is_prefix_of _AUTOCONFIG_SERVICE_LIST_PREFIX _AUTOCONFIG_PREFIX)
    with false.
  change (is_prefix_of _AUTOCONFIG_SERVICE_REGISTRATION_PREFIX
            _AUTOCONFIG_PREFIX) with false.
  rewrite decide_True by done. cbn [negb to_lower to_higher app].
  by rewrite handle_autoconfig_manifest.
Qed.

(** *** Messages of another shape *)

Lemma mistyped_dropped self now data :
  (∀ fid packet, ¬ well_formed data fid packet) →
  data_from_lower self now data = (self, Puts [] [], Ok ()).
Proof.
  intros Hnot. unfold data_from_lower.
  destruct data as [|z|q|items|items]; try done.
  - destruct items as [|[|fid|?|?|?] [|[|?|packet|?|?] [|? ?]]]; try done.
    exfalso. apply (Hnot fid packet). by left.
  - destruct items as [|[|fid|?|?|?] [|[|?|packet|?|?] [|? ?]]]; try done.
    exfalso. apply (Hnot fid packet). by right.
Qed.

Lemma expected_or_not data :
  (∃ fid packet, well_formed data fid packet)
  ∨ (∀ fid packet, ¬ well_formed data fid packet).
Proof.
  destruct data as [|z|q|items|items];
    try (right; intros fid packet [?|?]; done).
  - destruct items as [|[|fid|?|?|?] [|[|?|packet|?|?] [|? ?]]];
      try (right; intros fid' packet' [?|?]; done).
    left. exists fid, packet. by left.
  - destruct items as [|[|fid|?|?|?] [|[|?|packet|?|?] [|? ?]]];
      try (right; intros fid' packet' [?|?]; done).
    left. exists fid, packet. by right.
Qed.

(** X13: what comes from below and is not a list or tuple of a face id
    and a packet is dropped: nothing is put on either queue, nothing is
    raised and the layer is unchanged. *)
Theorem mistyped_message_dropped self now data :
  (∀ fid packet, ¬ well_formed data fid packet) →
  data_from_lower self now data = (self, Puts [] [], Ok ()).
Proof. apply mistyped_dropped. Qed.

(** *** One message per call *)

Lemma pass_through_any self now data fid packet :
  well_formed data fid packet →
  is_prefix_of _AUTOCONFIG_PREFIX (name packet) = false →
  data_from_lower self now data
  = (self,
     if _interest_to_app self then Puts [] [data] else Puts [data] [],
     Ok ()).
Proof.
  intros Hwf Hn.
  destruct (not_autoconfig _ Hn) as (Hne & Hlist & Hreg).
  destruct Hwf as [-> | ->]; unfold data_from_lower;
    rewrite Hn, Hlist, Hreg; simpl;
    destruct packet; try done;
    (rewrite decide_False by done);
    by destruct (_interest_to_app self); simpl; rewrite ?app_nil_r.
Qed.

Lemma list_or_registration (n : Name) :
  is_prefix_of _AUTOCONFIG_SERVICE_LIST_PREFIX n = true →
  is_prefix_of _AUTOCONFIG_SERVICE_REGISTRATION_PREFIX n = false.
Proof.
  destruct n as [|a [|b n]]; cbn [is_prefix_of _AUTOCONFIG_SERVICE_LIST_PREFIX
    _AUTOCONFIG_SERVICE_REGISTRATION_PREFIX]; try done.
  - by rewrite !andb_false_r.
  - rewrite !andb_true_iff, !bool_decide_eq_true. intros (_ & <- & _).
    by rewrite andb_false_r.
Qed.

Lemma handle_service_list_name self now interest :
  name (_handle_service_list self now interest) = name interest
  ∧ is_interest (_handle_service_list self now interest) = false.
Proof. unfold _handle_service_list. by case_decide. Qed.

Lemma handle_service_registration_name self now interest self' reply :
  _handle_service_registration self now interest = Ok (self', reply) →
  name reply = name interest ∧ is_interest reply = false.
Proof.
  unfold _handle_service_registration.
  destruct (name interest !! _) as [remote|]; [|done].
  cbn [mbind result_bind].
  destruct (remote_address remote) as [srvaddr|]; [|done].
  cbn [mbind result_bind]. case_decide; [by intros [= <- <-]|].
  destruct (renew _ _ _ _); [|by intros [= <- <-]].
  destruct (get_or_create_fid _ _ _). by intros [= <- <-].
Qed.

(** What one call puts on the queues, for a message of the expected
    shape: the message itself on one queue, or one reply on the lower
    queue, or nothing. *)
Lemma data_from_lower_puts self now data fid packet :
  well_formed data fid packet →
  let out := (data_from_lower self now data).1.2 in
  out = Puts [] []
  ∨ (is_prefix_of _AUTOCONFIG_PREFIX (name packet) = false
     ∧ (out = Puts [data] [] ∨ out = Puts [] [data]))
  ∨ (is_interest packet = true
     ∧ is_prefix_of _AUTOCONFIG_PREFIX (name packet) = true
     ∧ ∃ reply, out = Puts [PyList [PyInt fid; PyPacket reply]] []
                ∧ name reply = name packet ∧ is_interest reply = false).
Proof.
  intros Hwf out. subst out.
  destruct (is_prefix_of _AUTOCONFIG_PREFIX (name packet)) eqn:Hauto.
  2: { right. left. split; [done|].
       rewrite (pass_through_any self now data fid packet Hwf Hauto).
       cbn [fst snd]. destruct (_interest_to_app self); auto. }
  destruct packet as [n|n c|n r i].
  2, 3: left; destruct Hwf as [-> | ->]; unfold data_from_lower;
        cbn [name] in *; by rewrite Hauto.
  assert (data_from_lower self now data
          = data_from_lower self now (PyList [PyInt fid; PyPacket (Interest n)]))
    as ->.
  { destruct Hwf as [-> | ->]; [done|]. by apply data_from_lower_tuple. }
  cbn [name] in *. unfold data_from_lower. cbn [name]. rewrite Hauto.
  cbn [negb to_lower to_higher app].
  destruct (decide (_AUTOCONFIG_PREFIX = n)) as [<-|Hne].
  { right. right. split; [done|]. split; [done|].
    change (is_prefix_of _AUTOCONFIG_SERVICE_LIST_PREFIX _AUTOCONFIG_PREFIX)
      with false.
    change (is_prefix_of _AUTOCONFIG_SERVICE_REGISTRATION_PREFIX
              _AUTOCONFIG_PREFIX) with false.
    cbn [fst snd app]. eexists. split; [done|].
    by rewrite handle_autoconfig_manifest. }
  destruct (is_prefix_of _AUTOCONFIG_SERVICE_LIST_PREFIX n) eqn:Hlist.
  { rewrite (list_or_registration n Hlist). right. right.
    split; [done|]. split; [done|]. cbn [fst snd app]. eexists.
    split; [done|]. apply (handle_service_list_name self now (Interest n)). }
  destruct (is_prefix_of _AUTOCONFIG_SERVICE_REGISTRATION_PREFIX n);
    [|by left].
  destruct (_handle_service_registration self now (Interest n))
    as [[self' reply]|e] eqn:Hreg; [|by left].
  right. right. split; [done|]. split; [done|]. cbn [fst snd app].
  exists reply. split; [done|].
  apply (handle_service_registration_name _ _ _ _ _ Hreg).
Qed.

(** X14: one call of [data_from_lower] puts at most one message on the
    two queues together, whatever it is handed: the branches that answer
    an Interest exclude each other and the passing on. *)
Theorem at_most_one_put self now data :
  let out := (data_from_lower self now data).1.2 in
  length (to_lower out) + length (to_higher out) ≤ 1.
Proof.
  destruct (expected_or_not data) as [(fid & packet & Hwf) | Hnot].
  - destruct (data_from_lower_puts self now data fid packet Hwf)
      as [-> | [[_ [-> | ->]] | (_ & _ & reply & -> & _)]]; simpl; lia.
  - rewrite mistyped_dropped by done. simpl. lia.
Qed.

(** X15: what one call puts on the queues, for a face id and a packet: a
    packet whose name is not under [/autoconfig] is only passed on, as it
    came; for a packet under [/autoconfig] the only message is a reply to
    an Interest, put on the lower queue for the face the Interest came
    from, with the name of the Interest, and never an Interest itself. *)
Theorem puts_pass_on_or_answer self now data fid packet :
  well_formed data fid packet →
  let out := (data_from_lower self now data).1.2 in
  out = Puts [] []
  ∨ (is_prefix_of _AUTOCONFIG_PREFIX (name packet) = false
     ∧ (out = Puts [data] [] ∨ out = Puts [] [data]))
  ∨ (is_interest packet = true
     ∧ is_prefix_of _AUTOCONFIG_PREFIX (name packet) = true
     ∧ ∃ reply, out = Puts [PyList [PyInt fid; PyPacket reply]] []
                ∧ name reply = name packet ∧ is_interest reply = false).
Proof. apply data_from_lower_puts. Qed.

(** *** Registrations that raise *)

Lemma decode_ascii_only (b : bytes) :
  ascii_only b = true → decode_ascii b = Ok b.
Proof.
  induction b as [|c b IH]; cbn [ascii_only decode_ascii]; [done|].
  intros [Hc Hb]%andb_true_iff. apply bool_decide_eq_true in Hc.
  rewrite decide_True by done. by rewrite IH.
Qed.

Lemma split_length (s : string) : length (split colon s) = S (colons s).
Proof.
  induction s as [|c s IH]; cbn [split colons]; [done|].
  destruct (decide (c = colon)); cbn [length]; [by rewrite IH|].
  destruct (split colon s) as [|p ps]; [done|]. cbn [length] in *. lia.
Qed.

Lemma remote_address_colons (remote : bytes) :
  ascii_only remote = true → colons remote ≠ 1 →
  remote_address remote = Raise ValueError.
Proof.
  intros Hascii Hcolons. unfold remote_address.
  rewrite decode_ascii_only by done. cbn [mbind result_bind].
  pose proof (split_length remote) as Hlen.
  destruct (split colon remote) as [|host [|port [|? ?]]]; try done.
  cbn [length] in Hlen. lia.
Qed.

Lemma registration_raises self now data fid (remote : bytes) (srvname : Name)
    e :
  let n := _AUTOCONFIG_SERVICE_REGISTRATION_PREFIX ++ remote :: srvname in
  well_formed data fid (Interest n) →
  remote_address remote = Raise e →
  data_from_lower self now data = (self, Puts [] [], Raise e).
Proof.
  intros n Hwf Hremote.
  rewrite (data_from_lower_registration self now data fid (remote :: srvname))
    by done.
  fold n. unfold _handle_service_registration. cbn [name].
  change (n !! length _AUTOCONFIG_SERVICE_REGISTRATION_PREFIX)
    with (Some remote).
  cbn [mbind result_bind]. by rewrite Hremote.
Qed.

(** X16: a registration Interest whose remote component is ASCII and does
    not hold exactly one colon (as [udp4://127.0.1.1:1337] does not) makes
    [data_from_lower] raise ValueError: nothing is put on either queue and
    the layer is unchanged. *)
Theorem registration_remote_colons self now data fid (remote : bytes)
    (srvname : Name) :
  let n := _AUTOCONFIG_SERVICE_REGISTRATION_PREFIX ++ remote :: srvname in
  well_formed data fid (Interest n) →
  ascii_only remote = true → colons remote ≠ 1 →
  data_from_lower self now data = (self, Puts [] [], Raise ValueError).
Proof.
  intros n Hwf Hascii Hcolons.
  apply (registration_raises self now data fid remote srvname); [done|].
  by apply remote_address_colons.
Qed.

(** X17: an Interest for exactly [/autoconfig/service], without the
    remote component, makes [data_from_lower] raise IndexError: nothing is
    put on either queue and the layer is unchanged. *)
Theorem registration_without_remote self now data fid :
  well_formed data fid (Interest _AUTOCONFIG_SERVICE_REGISTRATION_PREFIX) →
  data_from_lower self now data = (self, Puts [] [], Raise IndexError).
Proof.
  intros Hwf.
  by rewrite (data_from_lower_registration self now data fid []) by done.
Qed.

(** *** What a call changes *)

Lemma renew_keyed srvname srvaddr deadline
    (known known' : list (Name * (string * Z) * Z)) :
  renew srvname srvaddr deadline known = Some known' →
  keyed known → keyed known'.
Proof.
  intros Hrenew. unfold keyed.
  by destruct (renew_keeps_names _ _ _ _ _ Hrenew) as [-> _].
Qed.

Lemma handle_service_registration_state self now interest self' reply :
  _handle_service_registration self now interest = Ok (self', reply) →
  _announce_addr self' = _announce_addr self
  ∧ _broadcast_addr self' = _broadcast_addr self
  ∧ _interest_to_app self' = _interest_to_app self
  ∧ _service_registration_prefixes self' = _service_registration_prefixes self
  ∧ _service_registration_timeout self' = _service_registration_timeout self
  ∧ (keyed (_known_services self) → keyed (_known_services self')).
Proof.
  unfold _handle_service_registration.
  destruct (name interest !! _) as [remote|]; [|done].
  cbn [mbind result_bind].
  destruct (remote_address remote) as [srvaddr|]; [|done].
  cbn [mbind result_bind]. case_decide; [by intros [= <- <-]|].
  destruct (renew _ _ _ _) as [known|] eqn:Hrenew; [|by intros [= <- <-]].
  destruct (get_or_create_fid _ _ _). intros [= <- <-].
  cbn. repeat split; try done. by apply (renew_keyed _ _ _ _ _ Hrenew).
Qed.

Lemma data_from_lower_state self now data :
  let self' := (data_from_lower self now data).1.1 in
  (self' = self
   ∨ ∃ fid n reply,
       well_formed data fid (Interest n)
       ∧ is_prefix_of _AUTOCONFIG_SERVICE_REGISTRATION_PREFIX n = true
       ∧ _handle_service_registration self now (Interest n)
         = Ok (self', reply)).
Proof.
  destruct (expected_or_not data) as [(fid & packet & Hwf) | Hnot].
  2: { left. by rewrite mistyped_dropped. }
  destruct packet as [n|n c|n r i].
  2, 3: left; by destruct Hwf as [-> | ->].
  destruct (is_prefix_of _AUTOCONFIG_SERVICE_REGISTRATION_PREFIX n) eqn:Hreg.
  - destruct (_handle_service_registration self now (Interest n))
      as [[self' reply]|e] eqn:Hhandle.
    + right. exists fid, n, reply. split; [done|]. split; [done|].
      destruct Hwf as [-> | ->]; unfold data_from_lower; cbn [name];
        by rewrite Hreg, Hhandle.
    + left. destruct Hwf as [-> | ->]; unfold data_from_lower; cbn [name];
        by rewrite Hreg, Hhandle.
  - left. destruct Hwf as [-> | ->]; unfold data_from_lower; cbn [name];
      by rewrite Hreg.
Qed.

(** X18: only the registration of a service changes the layer: a call of
    [data_from_lower] with anything but an Interest under
    [/autoconfig/service] leaves the layer, with its FIB, its face table
    and its known services, as it was. *)
Theorem only_registration_changes_layer self now data :
  (∀ fid n, well_formed data fid (Interest n) →
            is_prefix_of _AUTOCONFIG_SERVICE_REGISTRATION_PREFIX n = false) →
  (data_from_lower self now data).1.1 = self.
Proof.
  intros Hnot.
  destruct (data_from_lower_state self now data)
    as [Hsame | (fid & n & reply & Hwf & Hreg & _)]; [done|].
  rewrite (Hnot fid n Hwf) in Hreg. done.
Qed.

(** X19: no call of [data_from_lower] changes the configuration of the
    layer (addresses, [interest_to_app], registration prefixes, lease
    time), and a known-service list that is keyed by service name stays
    keyed. *)
Theorem configuration_kept self now data :
  let self' := (data_from_lower self now data).1.1 in
  _announce_addr self' = _announce_addr self
  ∧ _broadcast_addr self' = _broadcast_addr self
  ∧ _interest_to_app self' = _interest_to_app self
  ∧ _service_registration_prefixes self' = _service_registration_prefixes self
  ∧ _service_registration_timeout self' = _service_registration_timeout self
  ∧ (keyed (_known_services self) → keyed (_known_services self')).
Proof.
  destruct (data_from_lower_state self now data)
    as [-> | (fid & n & reply & _ & _ & Hhandle)]; [done|].
  apply (handle_service_registration_state _ _ _ _ _ Hhandle).
Qed.

(** *** Renewal *)

Lemma renew_known srvname srvaddr deadline
    (known : list (Name * (string * Z) * Z)) :
  keyed known →
  (∃ t, (srvname, srvaddr, t) ∈ known) →
  renew srvname srvaddr deadline known
  = Some (map (λ k, if decide (service_name k = srvname)
                    then (srvname, srvaddr, deadline) else k) known).
Proof.
  unfold keyed. induction known as [|[[service addr] t0] known IH];
    intros Hkeyed [t Hin]; [by apply elem_of_nil in Hin|].
  cbn [map] in Hkeyed. apply NoDup_cons in Hkeyed as [Hfresh Hkeyed].
  cbn [renew map]. unfold service_name at 1. cbn [fst].
  destruct (decide (service = srvname)) as [->|Hne].
  - assert (addr = srvaddr) as ->.
    { apply elem_of_cons in Hin as [[= <- _]|Hin]; [done|].
      exfalso. apply Hfresh. rewrite map_fmap. apply list_elem_of_fmap.
      by exists (srvname, srvaddr, t). }
    rewrite decide_False by (by intros ?). do 2 f_equal.
    clear -Hfresh. induction known as [|k known IH]; [done|].
    cbn [map] in *. apply not_elem_of_cons in Hfresh as [Hk Hfresh].
    rewrite decide_False by done. f_equal. by apply IH.
  - rewrite IH; [done | done |].
    apply elem_of_cons in Hin as [[= -> _ _]|Hin]; [done | by exists t].
Qed.

(** X20: the registration of a service that is known at the address it
    registers from renews its lease: the deadline of that service becomes
    [now] plus the lease time, every other known service is as it was,
    the face of the address is taken from the link layer as a static face,
    the static FIB entry of the service is added, and the reply is a
    Content without payload. *)
Theorem registration_renews_lease self now data fid (remote : bytes)
    (srvname : Name) (srvaddr : string * Z) (deadline : Z) :
  let n := _AUTOCONFIG_SERVICE_REGISTRATION_PREFIX ++ remote :: srvname in
  let face := get_or_create_fid (_linklayer self) srvaddr true in
  well_formed data fid (Interest n) →
  remote_address remote = Ok srvaddr →
  registrable (_service_registration_prefixes self) srvname →
  keyed (_known_services self) →
  (srvname, srvaddr, deadline) ∈ _known_services self →
  data_from_lower self now data
  = (Layer face.1 (add_fib_entry (_fib self) srvname face.2 true)
       (_announce_addr self) (_broadcast_addr self) (_interest_to_app self)
       (map (λ k, if decide (service_name k = srvname)
                  then (srvname, srvaddr,
                        (now + _service_registration_timeout self)%Z)
                  else k) (_known_services self))
       (_service_registration_prefixes self)
       (_service_registration_timeout self),
     Puts [PyList [PyInt fid; PyPacket (Content n None)]] [],
     Ok ()).
Proof.
  intros n face Hwf Hremote Hreg Hkeyed Hknown.
  apply (registration_accepted self now data fid remote srvname srvaddr);
    try done.
  apply renew_known; [done | by exists deadline].
Qed.

End autoconfig.

(** ** The layer on concrete packets *)

Section autoconfig_examples.
Import Packets Autoconfig AutoconfigSpec Reference.

(** C3, on a forwarder that knows no service yet: the registration of
    [/test/repo] from [127.0.1.1:1337] is acknowledged with an empty
    Content, the static face and the static FIB entry are there, and the
    known services are still empty: no lease is recorded for
    [/test/repo]. *)
Theorem registration_of_unknown_service_not_recorded :
  let after :=
    data_from_lower (server false) 100
      (PyList [PyInt 42; PyPacket registration_request]) in
  after.2 = Ok ()
  ∧ to_lower after.1.2
    = [PyList [PyInt 42; PyPacket (Content (name registration_request) None)]]
  ∧ faces (_linklayer after.1.1) = [("127.0.1.1", 1337%Z, 0%Z, true)]
  ∧ _fib after.1.1 = [FibEntry ["test"; "repo"] 0 true]
  ∧ _known_services after.1.1 = [].
Proof. vm_compute. done. Qed.

Example registration_renewed :
  let self :=
    Layer (Faces 9000 []) ([] : list ForwardingInformationBaseEntry)
      "127.0.0.1" "127.255.255.255" false
      [(["test"; "repo"], ("127.0.1.1", 1337%Z), 50%Z)] [["test"]] 3600 in
  _known_services
    (data_from_lower self 100
       (PyList [PyInt 42; PyPacket registration_request])).1.1
  = [(["test"; "repo"], ("127.0.1.1", 1337%Z), 3700%Z)].
Proof. vm_compute. done. Qed.

Lemma pass_through_witness :
  let self := server true in
  let data := PyList [PyInt 42; PyPacket (Interest ["foo"; "bar"])] in
  well_formed data 42 (Interest ["foo"; "bar"])
  ∧ is_prefix_of _AUTOCONFIG_PREFIX ["foo"; "bar"] = false
  ∧ data_from_lower self 0 data = (self, Puts [] [data], Ok ()).
Proof.
  intros self data. split; [by left|]. split; [reflexivity|].
  apply (pass_through self 0 data 42 (Interest ["foo"; "bar"]));
    [by left | reflexivity].
Defined.

Lemma autoconfig_reply_consumed_witness :
  let self := server true in
  let packet := Content ["autoconfig"; "forwarders"] (Some "udp4://h:1") in
  let data := PyTuple [PyInt 42; PyPacket packet] in
  well_formed data 42 packet
  ∧ is_interest packet = false
  ∧ is_prefix_of _AUTOCONFIG_PREFIX (name packet) = true
  ∧ data_from_lower self 0 data = (self, Puts [] [], Ok ()).
Proof.
  intros self packet data.
  split; [by right|]. split; [reflexivity|]. split; [reflexivity|].
  apply (autoconfig_reply_consumed self 0 data 42 packet);
    [by right | reflexivity | reflexivity].
Defined.

Lemma service_list_reply_witness :
  let data := PyList [PyInt 42; PyPacket (Interest ["autoconfig"; "services"; "test"])] in
  well_formed data 42 (Interest (_AUTOCONFIG_SERVICE_LIST_PREFIX ++ ["test"]))
  ∧ data_from_lower two_services 100 data
    = (two_services,
       Puts [PyList [PyInt 42;
                     PyPacket (Content ["autoconfig"; "services"; "test"]
                                 (Some ("/test/old" +:+ LF)))]] [],
       Ok ()).
Proof.
  intros data. split; [by left|].
  etrans; [apply (service_list_reply two_services 100 data 42 ["test"]);
           by left|].
  vm_compute. reflexivity.
Defined.

Lemma registration_refused_witness :
  let no_route :=
    PyList [PyInt 42; PyPacket (Interest ["autoconfig"; "service"; "127.0.1.1:1337"; "toast"; "repo"])] in
  let duplicate := PyList [PyInt 42; PyPacket registration_request] in
  (remote_address "127.0.1.1:1337" = Ok ("127.0.1.1", 1337%Z)
   ∧ ¬ registrable [["test"]] ["toast"; "repo"]
   ∧ data_from_lower two_services 100 no_route
     = (two_services,
        Puts [PyList [PyInt 42;
                      PyPacket (Nack ["autoconfig"; "service"; "127.0.1.1:1337"; "toast"; "repo"]
                                  NO_ROUTE
                                  (Some (Interest ["autoconfig"; "service"; "127.0.1.1:1337"; "toast"; "repo"])))]] [],
        Ok ()))
  ∧ (remote_address "127.0.1.3:1337" = Ok ("127.0.1.3", 1337%Z)
     ∧ registrable [["test"]] ["test"; "repo"]
     ∧ keyed (_known_services two_services)
     ∧ data_from_lower two_services 100
         (PyList [PyInt 42; PyPacket (Interest ["autoconfig"; "service"; "127.0.1.3:1337"; "test"; "repo"])])
       = (two_services,
          Puts [PyList [PyInt 42;
                        PyPacket (Nack ["autoconfig"; "service"; "127.0.1.3:1337"; "test"; "repo"]
                                    DUPLICATE
                                    (Some (Interest ["autoconfig"; "service"; "127.0.1.3:1337"; "test"; "repo"])))]] [],
          Ok ())).
Proof.
  intros no_route duplicate.
  assert (¬ registrable [["test"]] ["toast"; "repo"]) as Hnot.
  { intros (p & Hin & Hp). apply list_elem_of_singleton in Hin as ->. done. }
  assert (registrable [["test"]] ["test"; "repo"]) as Hreg.
  { exists ["test"]. split; [apply list_elem_of_here | reflexivity]. }
  assert (keyed (_known_services two_services)) as Hkeyed.
  { unfold keyed. apply (bool_decide_unpack _). vm_compute. exact I. }
  split.
  - split; [reflexivity|]. split; [done|].
    apply (registration_refused two_services 100 no_route 42
             "127.0.1.1:1337" ["toast"; "repo"] ("127.0.1.1", 1337%Z));
      [by left | reflexivity | done].
  - split; [reflexivity|]. split; [done|]. split; [done|].
    apply (registration_refused two_services 100 _ 42
             "127.0.1.3:1337" ["test"; "repo"] ("127.0.1.3", 1337%Z));
      [by left | reflexivity | done | done |].
    eexists. split; [apply list_elem_of_here|]. split; [reflexivity|].
    unfold service_addr. simpl. intros [=].
Defined.
Lemma autoconfig_manifest_reply_witness :
  let self := server false in
  let data := PyList [PyInt 42; PyPacket (Interest ["autoconfig"])] in
  well_formed data 42 (Interest _AUTOCONFIG_PREFIX)
  ∧ data_from_lower self 0 data
    = (self,
       Puts [PyList [PyInt 42;
                     PyPacket (Content _AUTOCONFIG_PREFIX
                                 (Some (manifest self)))]] [],
       Ok ()).
Proof.
  intros self data. split; [by left|].
  apply (autoconfig_manifest_reply self 0 data 42). by left.
Defined.

Example manifest_scenario :
  manifest (server false) = "127.0.0.1:9000" +:+ LF +:+ "p:/test" +:+ LF.
Proof. by vm_compute. Qed.

Lemma mistyped_message_dropped_witness :
  let self := server false in
  let data := PyList [PyInt 42] in
  (∀ fid packet, ¬ well_formed data fid packet)
  ∧ data_from_lower self 0 data = (self, Puts [] [], Ok ()).
Proof.
  intros self data.
  assert (∀ fid packet, ¬ well_formed data fid packet) as Hnot
    by (intros fid packet [?|?]; discriminate).
  split; [done|]. by apply (mistyped_message_dropped self 0 data).
Defined.

Lemma puts_pass_on_or_answer_witness :
  let self := server false in
  let packet := Interest ["autoconfig"; "services"] in
  let data := PyList [PyInt 42; PyPacket packet] in
  let out := (data_from_lower self 0 data).1.2 in
  well_formed data 42 packet
  ∧ (out = Puts [] []
     ∨ (is_prefix_of _AUTOCONFIG_PREFIX (name packet) = false
        ∧ (out = Puts [data] [] ∨ out = Puts [] [data]))
     ∨ (is_interest packet = true
        ∧ is_prefix_of _AUTOCONFIG_PREFIX (name packet) = true
        ∧ ∃ reply, out = Puts [PyList [PyInt 42; PyPacket reply]] []
                   ∧ name reply = name packet ∧ is_interest reply = false)).
Proof.
  intros self packet data out. split; [by left|].
  apply (puts_pass_on_or_answer self 0 data 42 packet). by left.
Defined.

Lemma registration_remote_colons_witness :
  let self := server false in
  let remote := "udp4://127.0.1.1:1337" in
  let n := _AUTOCONFIG_SERVICE_REGISTRATION_PREFIX
           ++ remote :: ["test"; "repo"] in
  let data := PyList [PyInt 42; PyPacket (Interest n)] in
  well_formed data 42 (Interest n)
  ∧ ascii_only remote = true ∧ colons remote ≠ 1
  ∧ data_from_lower self 0 data = (self, Puts [] [], Raise ValueError).
Proof.
  intros self remote n data.
  assert (colons remote ≠ 1) as Hcolons by (vm_compute; lia).
  split; [by left|]. split; [reflexivity|]. split; [done|].
  apply (registration_remote_colons self 0 data 42 remote ["test"; "repo"]);
    [by left | reflexivity | done].
Defined.

Lemma registration_without_remote_witness :
  let self := server false in
  let data := PyTuple [PyInt 42; PyPacket (Interest ["autoconfig"; "service"])] in
  well_formed data 42 (Interest _AUTOCONFIG_SERVICE_REGISTRATION_PREFIX)
  ∧ data_from_lower self 0 data = (self, Puts [] [], Raise IndexError).
Proof.
  intros self data. split; [by right|].
  apply (registration_without_remote self 0 data 42). by right.
Defined.

Lemma only_registration_changes_layer_witness :
  let data := PyList [PyInt 42; PyPacket (Interest ["autoconfig"; "services"])] in
  (∀ fid n, well_formed data fid (Interest n) →
            is_prefix_of _AUTOCONFIG_SERVICE_REGISTRATION_PREFIX n = false)
  ∧ (data_from_lower two_services 100 data).1.1 = two_services.
Proof.
  intros data.
  assert (∀ fid n, well_formed data fid (Interest n) →
                   is_prefix_of _AUTOCONFIG_SERVICE_REGISTRATION_PREFIX n
                   = false) as Hnot
    by (intros fid n [[= <- <-]|[=]]; reflexivity).
  split; [done|]. by apply (only_registration_changes_layer two_services 100 data).
Defined.

Lemma registration_renews_lease_witness :
  let self := two_services in
  let data := PyList [PyInt 42; PyPacket registration_request] in
  let srvaddr := ("127.0.1.1", 1337%Z) in
  well_formed data 42 registration_request
  ∧ remote_address "127.0.1.1:1337" = Ok srvaddr
  ∧ registrable (_service_registration_prefixes self) ["test"; "repo"]
  ∧ keyed (_known_services self)
  ∧ (["test"; "repo"], srvaddr, 50%Z) ∈ _known_services self
  ∧ _known_services (data_from_lower self 100 data).1.1
    = [(["test"; "repo"], srvaddr, 3700%Z);
       (["test"; "old"], ("127.0.1.2", 1337%Z), 150%Z)].
Proof.
  intros self data srvaddr.
  assert (registrable (_service_registration_prefixes self) ["test"; "repo"])
    as Hreg.
  { exists ["test"]. split; [apply list_elem_of_here | reflexivity]. }
  assert (keyed (_known_services self)) as Hkeyed.
  { unfold keyed. apply (bool_decide_unpack _). vm_compute. exact I. }
  assert ((["test"; "repo"], srvaddr, 50%Z) ∈ _known_services self) as Hknown
    by apply list_elem_of_here.
  split; [by left|]. split; [reflexivity|]. split; [done|]. split; [done|].
  split; [done|].
  rewrite (registration_renews_lease self 100 data 42 "127.0.1.1:1337"
             ["test"; "repo"] srvaddr 50);
    [reflexivity | by left | reflexivity | done | done | done].
Defined.

(** C4, as stated, fails: the Interest that registers [/toast/repo] from
    the remote [udp4://127.0.1.1:1337] names a service under no
    registration prefix, yet it is not answered with Nack(NO_ROUTE).  The
    remote holds two colons, so [host, port = remote.split(':')] raises
    [ValueError] before the prefixes are looked at, and nothing is put on
    a queue. *)
Lemma registration_not_refused_unparsed_remote :
  let n :=
    ["autoconfig"; "service"; "udp4://127.0.1.1:1337"; "toast"; "repo"] in
  let data := PyList [PyInt 42; PyPacket (Interest n)] in
  well_formed data 42 (Interest n)
  ∧ is_prefix_of _AUTOCONFIG_SERVICE_REGISTRATION_PREFIX n = true
  ∧ ¬ registrable (_service_registration_prefixes (server false))
        ["toast"; "repo"]
  ∧ data_from_lower (server false) 100 data
    = (server false, Puts [] [], Raise ValueError)
  ∧ data_from_lower (server false) 100 data
    ≠ (server false,
       Puts [PyList [PyInt 42;
                     PyPacket (Nack n NO_ROUTE (Some (Interest n)))]] [],
       Ok ()).
Proof.
  intros n data. split; [by left|]. split; [reflexivity|]. split.
  { intros (p & Hin & Hp). apply list_elem_of_singleton in Hin as ->. done. }
  assert (data_from_lower (server false) 100 data
          = (server false, Puts [] [], Raise ValueError)) as Hrun
    by (vm_compute; reflexivity).
  split; [exact Hrun|]. rewrite Hrun. intros [=].
Qed.

End autoconfig_examples.

(** ** The RIB tree *)

Section rib_tree.
Import Packets RIBTree RIBSpec.
Implicit Types (n self child : _RIBTreeNode) (cs : list _RIBTreeNode)
  (dv : list (Z * (Z * option Z))).

(** Induction on a tree: a property of a node may use the property of
    each of its children. *)
Lemma node_ind (P : _RIBTreeNode → Prop) :
  (∀ s p cs nc dv, Forall P cs → P (RIBTreeNode s p cs nc dv)) →
  ∀ n, P n.
Proof.
  intros step. fix IH 1. intros [s p cs nc dv]. apply step.
  induction cs as [|c cs IHcs]; constructor; [apply IH | apply IHcs].
Qed.

Lemma wf_unfold n :
  wf n ↔
  NoDup (map fst (_distance_vector n))
  ∧ NoDup (map _nc (_children n))
  ∧ Forall (λ c, _parent c = true ∧ is_Some (_nc c) ∧ wf c) (_children n).
Proof.
  unfold wf. destruct n as [s p cs nc dv]. cbn [wfb _distance_vector _children].
  rewrite !andb_true_iff, !bool_decide_eq_true, forallb_forall.
  rewrite Forall_forall. split.
  - intros [[? ?] Hall]. repeat split; try done;
      apply list_elem_of_In, Hall in H1;
      rewrite !andb_true_iff, bool_decide_eq_true in H1; tauto.
  - intros (? & ? & Hall). repeat split; try done.
    intros c Hc%list_elem_of_In. apply Hall in Hc.
    rewrite !andb_true_iff, bool_decide_eq_true. tauto.
Qed.

Lemma wf_init nc shortest : wf (__init__ nc shortest).
Proof. apply wf_unfold. simpl. repeat split; constructor. Qed.
(** *** Insertion *)

Lemma children_get_Some k cs child :
  children_get k cs = Some child → child ∈ cs ∧ _nc child = k.
Proof.
  induction cs as [|c cs IH]; simpl; [done|].
  destruct (decide (_nc c = k)) as [Hk|Hk].
  - intros [= ->]. split; [apply list_elem_of_here | done].
  - intros Hget. destruct (IH Hget). split; [by apply list_elem_of_further | done].
Qed.

Lemma children_get_None k cs :
  children_get k cs = None → k ∉ map _nc cs.
Proof.
  induction cs as [|c cs IH]; simpl; [intros _; apply not_elem_of_nil|].
  destruct (decide (_nc c = k)) as [Hk|Hk]; [done|].
  intros Hget. apply not_elem_of_cons. split; [done | by apply IH].
Qed.

Lemma children_set_keys child cs :
  map _nc (children_set child cs)
  = if decide (_nc child ∈ map _nc cs) then map _nc cs
    else map _nc cs ++ [_nc child].
Proof.
  induction cs as [|c cs IH]; cbn [children_set map].
  - rewrite decide_False; [done | apply not_elem_of_nil].
  - destruct (decide (_nc c = _nc child)) as [Hk|Hk]; cbn [map].
    + rewrite decide_True; [by rewrite Hk | rewrite Hk; apply list_elem_of_here].
    + rewrite IH. destruct (decide (_nc child ∈ map _nc cs)) as [Hin|Hin].
      * rewrite decide_True; [done | by apply list_elem_of_further].
      * rewrite decide_False; [done|].
        apply not_elem_of_cons. split; [done | done].
Qed.

Lemma children_set_NoDup child cs :
  NoDup (map _nc cs) → NoDup (map _nc (children_set child cs)).
Proof.
  intros Hcs. rewrite children_set_keys. case_decide as Hin; [done|].
  apply NoDup_app. split; [done|]. split; [|apply NoDup_singleton].
  intros k Hk ->%list_elem_of_singleton. done.
Qed.

Lemma children_set_Forall (P : _RIBTreeNode → Prop) child cs :
  P child → Forall P cs → Forall P (children_set child cs).
Proof.
  intros Hchild. induction 1 as [|c cs Hc Hcs IH]; simpl.
  - by constructor.
  - case_decide; constructor; done.
Qed.

Lemma children_set_elem child cs c :
  c ∈ children_set child cs → c = child ∨ c ∈ cs.
Proof.
  induction cs as [|c' cs IH]; simpl.
  - intros ->%list_elem_of_singleton. by left.
  - case_decide.
    + intros [->|Hin]%elem_of_cons; [by left | right; by apply list_elem_of_further].
    + intros [->|Hin]%elem_of_cons; [right; apply list_elem_of_here|].
      destruct (IH Hin); [by left | right; by apply list_elem_of_further].
Qed.

Lemma dict_set_keys {V : Type} (k : Z) (v : V) (d : list (Z * V)) :
  map fst (dict_set k v d)
  = if decide (k ∈ map fst d) then map fst d else map fst d ++ [k].
Proof.
  induction d as [|[k' v'] d IH]; cbn [dict_set map fst].
  - rewrite decide_False; [done | apply not_elem_of_nil].
  - destruct (decide (k' = k)) as [->|Hk]; cbn [map fst].
    + rewrite decide_True; [done | apply list_elem_of_here].
    + rewrite IH. destruct (decide (k ∈ map fst d)) as [Hin|Hin].
      * rewrite decide_True; [done | by apply list_elem_of_further].
      * rewrite decide_False; [done|].
        apply not_elem_of_cons. split; [done | done].
Qed.

Lemma dict_set_NoDup {V : Type} (k : Z) (v : V) (d : list (Z * V)) :
  NoDup (map fst d) → NoDup (map fst (dict_set k v d)).
Proof.
  intros Hd. rewrite dict_set_keys. case_decide as Hin; [done|].
  apply NoDup_app. split; [done|]. split; [|apply NoDup_singleton].
  intros k' Hk ->%list_elem_of_singleton. done.
Qed.

(** The second loop of [insert] never raises: every node it links is a
    fresh one. *)
Lemma insert_create_total shortest node comps fid distance timeout :
  ∃ node',
    insert_create shortest node comps fid distance timeout = Ok node'
    ∧ _parent node' = _parent node
    ∧ _nc node' = _nc node
    ∧ (wf node → wf node').
Proof.
  revert node. induction comps as [|c comps IH]; intros node; simpl.
  - eexists. split; [done|]. split; [done|]. split; [done|].
    rewrite !wf_unfold. simpl. intros (Hdv & Hcs & Hall).
    split; [by apply dict_set_NoDup | done].
  - destruct (IH (__init__ (Some c) shortest))
      as (child & -> & Hparent & Hnc & Hwf).
    cbn [mbind result_bind]. unfold _add_child. rewrite Hparent. simpl.
    eexists. split; [done|]. split; [done|]. split; [done|].
    rewrite !wf_unfold. simpl. intros (Hdv & Hcs & Hall).
    split; [done|]. split; [by apply children_set_NoDup|].
    apply children_set_Forall; [|done]. simpl. rewrite Hnc. simpl.
    split; [done|]. split; [done|].
    apply wf_unfold. apply wf_unfold in Hwf; [done | apply wf_init].
Qed.

(** Nor does the first. *)
Lemma insert_walk_total shortest node comps fid distance timeout :
  ∃ node',
    insert_walk shortest node comps fid distance timeout = Ok node'
    ∧ _parent node' = _parent node
    ∧ _nc node' = _nc node
    ∧ (wf node → wf node').
Proof.
  revert node. induction comps as [|c comps IH]; intros node.
  - apply (insert_create_total shortest node []).
  - simpl. destruct (children_get (Some c) (_children node)) as [child|] eqn:Hget.
    + destruct (IH child) as (child' & -> & Hparent & Hnc & Hwf).
      cbn [mbind result_bind].
      eexists. split; [done|]. split; [done|]. split; [done|].
      apply children_get_Some in Hget as [Hin Hkey].
      rewrite !wf_unfold. simpl. intros (Hdv & Hcs & Hall).
      split; [done|]. split; [by apply children_set_NoDup|].
      apply children_set_Forall; [|done].
      rewrite Forall_forall in Hall. destruct (Hall _ Hin) as (Hp & Hk & Hw).
      rewrite Hparent, Hnc. auto.
    + apply (insert_create_total shortest node (c :: comps)).
Qed.

(** C9: [insert] on a node that has a parent raises ValueError and leaves
    the node, and so the tree, as it was; a call of [insert] that returns
    was made on a node without parent, the root. *)
Theorem insert_only_at_root self (name : Name) fid distance
    (timeout : option Z) :
  (_parent self = true →
   insert self name fid distance timeout = (self, Raise ValueError))
  ∧ ((insert self name fid distance timeout).2 = Ok () →
     _parent self = false).
Proof.
  unfold insert. destruct (_parent self); split; try done.
Qed.

(** On the root [insert] returns, and keeps the invariants of the tree. *)
Lemma insert_at_root self (name : Name) fid distance (timeout : option Z) :
  _parent self = false →
  ∃ self',
    insert self name fid distance timeout = (self', Ok ())
    ∧ _parent self' = false
    ∧ _nc self' = _nc self
    ∧ (wf self → wf self').
Proof.
  intros Hroot. unfold insert. rewrite Hroot.
  destruct (insert_walk_total (_collapse_shortest self) self (components name)
              fid distance timeout) as (self' & -> & Hp & Hnc & Hwf).
  exists self'. rewrite Hp. auto.
Qed.

Lemma insert_all_root shortest (routes : list route) :
  let tree := RIB._tree (insert_all (RIB.__init__ shortest) routes) in
  _parent tree = false ∧ _nc tree = None ∧ wf tree.
Proof.
  assert (∀ rib,
            _parent (RIB._tree rib) = false ∧ _nc (RIB._tree rib) = None
            ∧ wf (RIB._tree rib) →
            _parent (RIB._tree (insert_all rib routes)) = false
            ∧ _nc (RIB._tree (insert_all rib routes)) = None
            ∧ wf (RIB._tree (insert_all rib routes))) as Hall.
  { induction routes as [|r routes IH]; intros rib Hrib; [done|].
    simpl. apply IH. destruct Hrib as (Hp & Hnc & Hwf).
    unfold RIB.insert.
    destruct (insert_at_root (RIB._tree rib) r.1.1.1 r.1.1.2 r.1.2 r.2 Hp)
      as (tree' & -> & Hp' & Hnc' & Hwf').
    simpl. rewrite Hnc' . auto. }
  apply Hall. simpl. split; [done|]. split; [done|]. apply wf_init.
Qed.

(** *** Ageing *)

Lemma elem_of_flat_map {A B : Type} (f : A → list B) (l : list A) (y : B) :
  y ∈ flat_map f l ↔ ∃ x, x ∈ l ∧ y ∈ f x.
Proof.
  rewrite list_elem_of_In, in_flat_map. split.
  - intros (x & Hx & Hy). exists x. by rewrite !list_elem_of_In.
  - intros (x & Hx & Hy). exists x. by rewrite <- !list_elem_of_In.
Qed.

Lemma dict_del_NoDup {V : Type} (k : Z) (d : list (Z * V)) :
  NoDup (map fst d) → NoDup (map fst (dict_del k d)).
Proof.
  induction d as [|[k' v'] d IH]; cbn [dict_del map fst]; [done|].
  intros [Hfresh Hd]%NoDup_cons. case_decide; [done|].
  cbn [map fst]. apply NoDup_cons. split; [|by apply IH].
  intros Hin. apply Hfresh. clear -Hin.
  induction d as [|[k'' v''] d IHd]; cbn [dict_del map fst] in *; [done|].
  case_decide; [by apply list_elem_of_further|].
  cbn [map fst] in Hin. apply elem_of_cons in Hin as [->|Hin].
  - apply list_elem_of_here.
  - apply list_elem_of_further. by apply IHd.
Qed.

Lemma dict_del_elem {V : Type} (k : Z) (d : list (Z * V)) (x : Z * V) :
  NoDup (map fst d) → x ∈ dict_del k d → x ∈ d ∧ x.1 ≠ k.
Proof.
  induction d as [|[k' v'] d IH]; cbn [dict_del map fst];
    [by intros _ ?%elem_of_nil|].
  intros [Hfresh Hd]%NoDup_cons. case_decide as Hk.
  - subst k'. intros Hin. split; [by apply list_elem_of_further|].
    intros Hx. apply Hfresh. rewrite map_fmap. apply list_elem_of_fmap.
    by exists x.
  - intros [->|Hin]%elem_of_cons.
    + split; [apply list_elem_of_here | done].
    + destruct (IH Hd Hin). split; [by apply list_elem_of_further | done].
Qed.

Lemma foldl_dict_del {V : Type} (ks : list Z) (d : list (Z * V)) :
  NoDup (map fst d) →
  NoDup (map fst (foldl (λ d k, dict_del k d) d ks))
  ∧ ∀ x, x ∈ foldl (λ d k, dict_del k d) d ks → x ∈ d ∧ x.1 ∉ ks.
Proof.
  revert d. induction ks as [|k ks IH]; intros d Hd; simpl.
  - split; [done|]. intros x Hx. split; [done | apply not_elem_of_nil].
  - destruct (IH (dict_del k d) (dict_del_NoDup k d Hd)) as [Hnodup Hall].
    split; [done|]. intros x Hx. destruct (Hall x Hx) as [Hin Hks].
    destruct (dict_del_elem k d x Hd Hin) as [Hin' Hne].
    split; [done|]. apply not_elem_of_cons. done.
Qed.

(** What the distance vector holds after the entries out of date are
    deleted. *)
Lemma expire_elem now dv x :
  NoDup (map fst dv) →
  x ∈ expire now dv → x ∈ dv ∧ outdated now x = false.
Proof.
  intros Hdv Hx. unfold expire in Hx.
  destruct (foldl_dict_del
              (map fst (filter (λ x, outdated now x = true) dv)) dv Hdv)
    as [_ Hall].
  destruct (Hall x Hx) as [Hin Hnot]. split; [done|].
  destruct (outdated now x) eqn:Hout; [|done].
  exfalso. apply Hnot. rewrite map_fmap. apply list_elem_of_fmap.
  exists x. split; [done|]. by apply list_elem_of_filter.
Qed.

Lemma expire_NoDup now dv :
  NoDup (map fst dv) → NoDup (map fst (expire now dv)).
Proof. intros Hdv. by apply foldl_dict_del. Qed.

Lemma ageing_unfold now self :
  ageing now self
  = let children := ageing_children now (_children self) in
    let dv := expire now (_distance_vector self) in
    if _parent self && bool_decide (length dv = 0)
       && bool_decide (length children = 0)
    then (RIBTreeNode (_collapse_shortest self) false children (_nc self) dv,
          true)
    else (RIBTreeNode (_collapse_shortest self) (_parent self) children
            (_nc self) dv, false).
Proof.
  destruct self as [s p cs nc dv]. cbn [ageing _children].
  assert ((fix ageing_children (l : list _RIBTreeNode) : list _RIBTreeNode :=
             match l with
             | [] => []
             | child :: l' =>
                 let '(child', removed) := ageing now child in
                 if removed : bool then ageing_children l'
                 else child' :: ageing_children l'
             end) cs = ageing_children now cs) as ->; [|done].
  induction cs as [|c cs IH]; [done|]. cbn [ageing_children].
  destruct (ageing now c) as [c' []]; by rewrite IH.
Qed.

Lemma ageing_children_elem now cs m :
  m ∈ ageing_children now cs →
  ∃ c, c ∈ cs ∧ m = (ageing now c).1 ∧ (ageing now c).2 = false.
Proof.
  induction cs as [|c cs IH]; cbn [ageing_children]; [by intros ?%elem_of_nil|].
  destruct (ageing now c) as [c' removed] eqn:Hc. destruct removed.
  - intros Hm. destruct (IH Hm) as (c0 & Hin & Heq).
    exists c0. split; [by apply list_elem_of_further | done].
  - intros [->|Hm]%elem_of_cons.
    + exists c. rewrite Hc. split; [apply list_elem_of_here | done].
    + destruct (IH Hm) as (c0 & Hin & Heq).
      exists c0. split; [by apply list_elem_of_further | done].
Qed.

Lemma ageing_node now self :
  let after := ageing now self in
  _children after.1 = ageing_children now (_children self)
  ∧ _distance_vector after.1 = expire now (_distance_vector self)
  ∧ _nc after.1 = _nc self
  ∧ (_parent self = true → after.2 = false → ¬ empty_leaf after.1).
Proof.
  rewrite ageing_unfold. cbn zeta.
  destruct (_parent self && bool_decide (length (expire now (_distance_vector self)) = 0)
            && bool_decide (length (ageing_children now (_children self)) = 0))
    eqn:Hcond; cbn [fst snd _children _distance_vector _nc].
  - repeat split; done.
  - repeat split; try done. intros Hp _ [Hdv Hcs]. simpl in Hdv, Hcs.
    rewrite Hp, Hdv, Hcs in Hcond. done.
Qed.

Lemma ageing_kept now self :
  (ageing now self).2 = false → _parent (ageing now self).1 = _parent self.
Proof.
  rewrite ageing_unfold. cbn zeta.
  by destruct (_parent self && _ && _).
Qed.

Lemma ageing_children_keys now cs :
  map _nc (ageing_children now cs) `sublist_of` map _nc cs.
Proof.
  induction cs as [|c cs IH]; cbn [ageing_children map]; [done|].
  destruct (ageing now c) as [c' removed] eqn:Hc. destruct removed.
  - by apply sublist_cons.
  - cbn [map]. destruct (ageing_node now c) as (_ & _ & Hnc & _).
    rewrite Hc in Hnc. cbn [fst] in Hnc. rewrite Hnc. by apply sublist_skip.
Qed.

(** [ageing] keeps the invariants of the tree. *)
Lemma ageing_wf now tree : wf tree → wf (ageing now tree).1.
Proof.
  induction tree as [s p cs nc dv IH] using node_ind.
  intros (Hdv & Hcs & Hall)%wf_unfold. cbn [_distance_vector _children] in *.
  set (self := RIBTreeNode s p cs nc dv).
  destruct (ageing_node now self) as (Hchildren & Hvector & _ & _).
  apply wf_unfold. rewrite Hchildren, Hvector. cbn [_distance_vector _children self].
  split; [by apply expire_NoDup|].
  split; [exact (sublist_NoDup _ _ Hcs (ageing_children_keys now cs))|].
  apply Forall_forall. intros c' (c & Hin & -> & Hkept)%ageing_children_elem.
  rewrite Forall_forall in IH, Hall. destruct (Hall c Hin) as (Hp & Hk & Hwf).
  destruct (ageing_node now c) as (_ & _ & Hnc & _).
  rewrite (ageing_kept now c Hkept), Hnc. auto.
Qed.

(** C5: after [ageing(now)] on a tree, no distance vector of the tree
    holds an entry whose timeout is at or before [now], and no node below
    the root is left that has neither a distance vector entry nor a
    child. *)
Theorem ageing_cleans now tree :
  wf tree →
  let tree' := (ageing now tree).1 in
  (∀ n, n ∈ nodes tree' → fresh now n)
  ∧ (∀ n, n ∈ descendants tree' → ¬ empty_leaf n).
Proof.
  intros Hwf tree'. subst tree'.
  enough ((∀ n, n ∈ (ageing now tree).1 :: descendants (ageing now tree).1
                → fresh now n)
          ∧ (∀ n, n ∈ descendants (ageing now tree).1 → ¬ empty_leaf n))
    as Hgoal.
  { destruct (ageing now tree).1; exact Hgoal. }
  revert Hwf. induction tree as [s p cs nc dv IH] using node_ind.
  intros (Hdv & Hcs & Hall)%wf_unfold. cbn [_distance_vector _children] in *.
  set (self := RIBTreeNode s p cs nc dv).
  destruct (ageing_node now self) as (Hchildren & Hvector & _ & _).
  unfold descendants. rewrite Hchildren. cbn [_children self].
  assert (∀ c', c' ∈ ageing_children now cs →
                (∀ n, n ∈ c' :: descendants c' → fresh now n)
                ∧ (∀ n, n ∈ descendants c' → ¬ empty_leaf n)
                ∧ ¬ empty_leaf c') as Hchild.
  { intros c' (c & Hin & -> & Hkept)%ageing_children_elem.
    rewrite Forall_forall in IH, Hall.
    destruct (Hall c Hin) as (Hp & _ & Hwf).
    destruct (IH c Hin Hwf) as [Hfresh Hfull].
    split; [done|]. split; [done|].
    by apply (ageing_node now c). }
  assert (∀ c' n, n ∈ nodes c' → n ∈ c' :: descendants c') as Hnodes.
  { intros [] n Hn. exact Hn. }
  split.
  - intros n [->|Hn]%elem_of_cons.
    + intros fid dist timeout Hin. rewrite Hvector in Hin.
      apply expire_elem in Hin as [_ Hout]; [|done].
      unfold outdated in Hout. simpl in Hout. lia.
    + apply elem_of_flat_map in Hn as (c' & Hc' & Hn).
      by apply (Hchild c' Hc'), Hnodes.
  - intros n (c' & Hc' & Hn)%elem_of_flat_map.
    destruct (Hchild c' Hc') as (_ & Hfull & Hself).
    apply Hnodes, elem_of_cons in Hn as [->|Hn]; [done | by apply Hfull].
Qed.

(** *** Collapsing *)

Lemma collapse_unfold self :
  collapse self
  = if decide (length (_children self) = 0) then own_entries self
    else candidates self ≫= reduce self.
Proof.
  destruct self as [s p cs nc dv]. cbn [collapse _children].
  case_decide; [done|]. unfold candidates. cbn [_children].
  assert ((fix collapse_children (l : list _RIBTreeNode) : result (list entry) :=
             match l with
             | [] => Ok []
             | child :: l' =>
                 r ← collapse child;
                 rs ← collapse_children l';
                 Ok (r ++ rs)
             end) cs = collapse_children cs) as ->.
  { clear. induction cs as [|c cs IH]; [done|]. cbn [collapse_children].
    destruct (collapse c); [|done]. cbn [mbind result_bind]. by rewrite IH. }
  destruct (collapse_children cs); [|done]. cbn [mbind result_bind].
  by destruct (own_entries _).
Qed.

Lemma collapse_children_elem l ch_res e :
  collapse_children l = Ok ch_res →
  e ∈ ch_res ↔ ∃ c r, c ∈ l ∧ collapse c = Ok r ∧ e ∈ r.
Proof.
  revert ch_res. induction l as [|c l IH]; intros ch_res; cbn [collapse_children].
  - intros [= <-]. split; [by intros ?%elem_of_nil|].
    by intros (? & ? & ?%elem_of_nil & _).
  - destruct (collapse c) as [r|] eqn:Hc; [|done]. cbn [mbind result_bind].
    destruct (collapse_children l) as [rs|] eqn:Hl; [|done].
    cbn [mbind result_bind]. intros [= <-]. rewrite elem_of_app, (IH rs eq_refl).
    split.
    + intros [He | (c' & r' & Hin & Hc' & He)].
      * exists c, r. split; [apply list_elem_of_here | done].
      * exists c', r'. split; [by apply list_elem_of_further | done].
    + intros (c' & r' & [->|Hin]%elem_of_cons & Hc' & He).
      * left. congruence.
      * right. by exists c', r'.
Qed.

Lemma own_entries_name n own e :
  own_entries n = Ok own → e ∈ own → e_name e = nclist n.
Proof.
  unfold own_entries. case_decide; [|by intros [= <-] ?%elem_of_nil].
  destruct (_collapse_shortest n).
  - destruct (_get_best_fid n); [|done]. cbn [mbind result_bind].
    by intros [= <-] ->%list_elem_of_singleton.
  - intros [= <-]. rewrite map_fmap.
    by intros (x & -> & _)%list_elem_of_fmap.
Qed.

Lemma prepend_elem nc (l : list entry) e :
  e ∈ prepend nc l ↔
  ∃ e', e' ∈ l ∧ e_fid e = e_fid e' ∧ e_dist e = e_dist e'
        ∧ e_timeout e = e_timeout e'
        ∧ e_name e = match nc with
                     | Some k => k :: e_name e'
                     | None => e_name e'
                     end.
Proof.
  destruct nc as [k|]; cbn [prepend].
  - rewrite map_fmap, list_elem_of_fmap. split.
    + intros (e' & -> & Hin). by exists e'.
    + intros (e' & Hin & Hf & Hd & Ht & Hn). exists e'. split; [|done].
      destruct e as [[[? ?] ?] ?]. unfold e_fid, e_dist, e_timeout, e_name in *.
      simpl in *. by subst.
  - split.
    + intros Hin. by exists e.
    + intros (e' & Hin & Hf & Hd & Ht & Hn).
      destruct e as [[[? ?] ?] ?], e' as [[[? ?] ?] ?].
      unfold e_fid, e_dist, e_timeout, e_name in *. simpl in *. by subst.
Qed.

(** The two ways [collapse] leaves a node that has children: with its
    candidates as they are, or with the one entry for its own name. *)
Lemma reduce_cases self (l res : list entry) :
  reduce self l = Ok res →
  (res = l
   ∧ ¬ (size (list_to_set (map e_fid l) : gset Z) = 1 ∧ 1 < length l))
  ∨ (size (list_to_set (map e_fid l) : gset Z) = 1 ∧ 1 < length l
     ∧ ∃ sf m, res = [(nclist self, sf, m.1, m.2)]).
Proof.
  unfold reduce. case_decide as Hone; [|intros [= <-]; by left].
  destruct (elements _) as [|sf ?]; [done|].
  destruct (py_min _) as [m|]; [|done]. cbn [mbind result_bind].
  intros [= <-]. right. destruct Hone. eauto.
Qed.

(** Every name [collapse] returns at a node starts with the node's own
    name component. *)
Lemma collapse_names self k res e :
  _nc self = Some k → collapse self = Ok res → e ∈ res →
  ∃ rest, e_name e = k :: rest.
Proof.
  intros Hk. rewrite collapse_unfold. case_decide.
  - intros Hown He. exists []. rewrite (own_entries_name _ _ _ Hown He).
    unfold nclist. by rewrite Hk.
  - unfold candidates.
    destruct (collapse_children (_children self)) as [ch_res|]; [|done].
    cbn [mbind result_bind].
    destruct (own_entries self) as [own|] eqn:Hown; [|done].
    cbn [mbind result_bind].
    intros [[-> _] | (_ & _ & sf & m & ->)]%reduce_cases.
    + intros [He|He]%elem_of_app.
      * apply prepend_elem in He as (e' & _ & _ & _ & _ & Hn).
        rewrite Hk in Hn. eauto.
      * exists []. rewrite (own_entries_name _ _ _ Hown He).
        unfold nclist. by rewrite Hk.
    + intros ->%list_elem_of_singleton. exists []. unfold nclist, e_name.
      simpl. by rewrite Hk.
Qed.

Lemma NoDup_map_inj {A B : Type} (f : A → B) (l : list A) (x y : A) :
  NoDup (map f l) → x ∈ l → y ∈ l → f x = f y → x = y.
Proof.
  induction l as [|a l IH]; cbn [map]; [by intros _ ?%elem_of_nil|].
  intros [Hfresh Hl]%NoDup_cons [->|Hx]%elem_of_cons [->|Hy]%elem_of_cons Hf.
  - done.
  - exfalso. apply Hfresh. rewrite Hf, map_fmap. by apply list_elem_of_fmap_2.
  - exfalso. apply Hfresh. rewrite <- Hf, map_fmap. by apply list_elem_of_fmap_2.
  - by apply IH.
Qed.

Lemma all_one_face (f : Z) (l : list entry) :
  l ≠ [] → Forall (λ e, e_fid e = f) l →
  (list_to_set (map e_fid l) : gset Z) = {[f]}.
Proof.
  intros Hne Hall. apply set_eq. intros x.
  rewrite elem_of_list_to_set, elem_of_singleton, map_fmap, list_elem_of_fmap.
  rewrite Forall_forall in Hall. split.
  - intros (e & -> & He). by apply Hall.
  - intros ->. destruct l as [|e l]; [done|]. exists e.
    split; [symmetry; apply Hall|]; apply list_elem_of_here.
Qed.

Lemma two_elements {A : Type} (l : list A) (x y : A) :
  x ∈ l → y ∈ l → x ≠ y → 1 < length l.
Proof.
  destruct l as [|a [|b l]]; simpl; [by intros ?%elem_of_nil | | lia].
  intros ->%list_elem_of_singleton ->%list_elem_of_singleton. done.
Qed.

(** Candidates that [collapse] leaves as they are and that hold two
    different entries do not all have the face of one of them. *)
Lemma other_face self (l : list entry) e1 e2 :
  reduce self l = Ok l →
  ¬ (size (list_to_set (map e_fid l) : gset Z) = 1 ∧ 1 < length l) →
  e1 ∈ l → e2 ∈ l → e1 ≠ e2 →
  ∃ e3, e3 ∈ l ∧ e_fid e3 ≠ e_fid e1.
Proof.
  intros _ Hnot H1 H2 Hne.
  destruct (decide (Forall (λ e, e_fid e = e_fid e1) l)) as [Hsame|Hdiff].
  - exfalso. apply Hnot. split; [|by apply (two_elements l e1 e2)].
    rewrite (all_one_face (e_fid e1)); [apply size_singleton | | done].
    intros ->. by apply elem_of_nil in H1.
  - apply not_Forall_Exists in Hdiff; [|apply _].
    apply Exists_exists in Hdiff as (e3 & H3 & Hne3). by exists e3.
Qed.

Lemma is_prefix_of_below nc (a b : Name) :
  is_prefix_of (below nc a) (below nc b) = is_prefix_of a b.
Proof.
  destruct nc as [k|]; [|done]. cbn [below is_prefix_of].
  by rewrite bool_decide_eq_true_2.
Qed.

Lemma strict_prefix_below nc (a b : Name) :
  strict_prefix (below nc a) (below nc b) → strict_prefix a b.
Proof.
  unfold strict_prefix. rewrite is_prefix_of_below.
  intros [Hp Hne]. split; [done|]. by intros ->.
Qed.

Lemma nclist_below nc s p cs dv (a : Name) :
  is_prefix_of (nclist (RIBTreeNode s p cs nc dv)) (below nc a) = true.
Proof.
  unfold nclist. destruct nc as [k|]; cbn [_nc below is_prefix_of]; [|done].
  by rewrite bool_decide_eq_true_2.
Qed.

(** The entries [collapse] returns at a node of a tree: where the name of
    one is a strict prefix of the name of another with the same face,
    a third entry under the shorter name has another face. *)
Lemma collapse_prefix_pairs_node n :
  wf n → ∀ res, collapse n = Ok res →
  ∀ e1 e2, e1 ∈ res → e2 ∈ res → e_fid e1 = e_fid e2 →
           strict_prefix (e_name e1) (e_name e2) →
  ∃ e3, e3 ∈ res ∧ is_prefix_of (e_name e1) (e_name e3) = true
        ∧ e_fid e3 ≠ e_fid e1.
Proof.
  induction n as [s p cs nc dv IH] using node_ind.
  intros (Hdv & Hcs & Hall)%wf_unfold res.
  cbn [_distance_vector _children] in *.
  set (self := RIBTreeNode s p cs nc dv).
  rewrite collapse_unfold. case_decide as Hleaf.
  { intros Hown e1 e2 H1 H2 _ [_ Hne]. exfalso. apply Hne.
    by rewrite (own_entries_name _ _ _ Hown H1),
               (own_entries_name _ _ _ Hown H2). }
  unfold candidates. cbn [_children _nc self].
  destruct (collapse_children cs) as [ch_res|] eqn:Hch; [|done].
  cbn [mbind result_bind].
  destruct (own_entries self) as [own|] eqn:Hown; [|done].
  cbn [mbind result_bind]. intros Hreduce.
  destruct (reduce_cases _ _ _ Hreduce)
    as [[-> Hnot] | (_ & _ & sf & m & ->)]; intros e1 e2 H1 H2 Hfid Hstrict.
  2: { apply list_elem_of_singleton in H1, H2. subst.
       by destruct Hstrict as [_ []]. }
  assert (e1 ≠ e2) as Hne12.
  { intros ->. by destruct Hstrict as [_ []]. }
  assert (∀ e, e ∈ prepend nc ch_res ++ own →
               is_prefix_of (nclist self) (e_name e) = true) as Hunder.
  { intros e [He|He]%elem_of_app.
    - apply prepend_elem in He as (e' & _ & _ & _ & _ & ->).
      apply (nclist_below nc s p cs dv (e_name e')).
    - rewrite (own_entries_name _ _ _ Hown He).
      by apply is_prefix_of_prefix. }
  apply elem_of_app in H1 as [H1|H1].
  - (* [e1] is an entry of a child *)
    apply prepend_elem in H1 as (e1' & H1' & Hf1 & _ & _ & Hn1).
    fold (below nc (e_name e1')) in Hn1.
    apply (collapse_children_elem _ _ _ Hch) in H1'
      as (c1 & r1 & Hc1 & Hr1 & H1').
    rewrite Forall_forall in Hall, IH.
    destruct (Hall c1 Hc1) as (_ & [k1 Hk1] & Hwf1).
    destruct (collapse_names c1 k1 r1 e1' Hk1 Hr1 H1') as [rest1 Hrest1].
    apply elem_of_app in H2 as [H2|H2].
    + apply prepend_elem in H2 as (e2' & H2' & Hf2 & _ & _ & Hn2).
      fold (below nc (e_name e2')) in Hn2.
      apply (collapse_children_elem _ _ _ Hch) in H2'
        as (c2 & r2 & Hc2 & Hr2 & H2').
      destruct (Hall c2 Hc2) as (_ & [k2 Hk2] & _).
      destruct (collapse_names c2 k2 r2 e2' Hk2 Hr2 H2') as [rest2 Hrest2].
      rewrite Hn1, Hn2 in Hstrict. apply strict_prefix_below in Hstrict.
      assert (c1 = c2) as <-.
      { apply (NoDup_map_inj _nc cs); [done..|].
        rewrite Hk1, Hk2. f_equal.
        destruct Hstrict as [Hp _]. rewrite Hrest1, Hrest2 in Hp.
        cbn [is_prefix_of] in Hp. apply andb_true_iff in Hp as [Hk _].
        by apply bool_decide_eq_true in Hk. }
      assert (r2 = r1) as -> by congruence.
      destruct (IH c1 Hc1 Hwf1 r1 Hr1 e1' e2' H1' H2') as (e3' & H3' & Hp3 & Hf3);
        [congruence | done |].
      exists (below nc (e_name e3'), e_fid e3', e_dist e3', e_timeout e3').
      split; [|split].
      * apply elem_of_app. left. apply prepend_elem. exists e3'.
        split; [|done].
        apply (collapse_children_elem _ _ _ Hch). by exists c1, r1.
      * rewrite Hn1. unfold e_name at 2. cbn [fst].
        by rewrite is_prefix_of_below.
      * unfold e_fid at 1. cbn [fst snd]. congruence.
    + exfalso. destruct Hstrict as [Hp _].
      rewrite (own_entries_name _ _ _ Hown H2), Hn1, Hrest1 in Hp.
      unfold nclist, self in Hp. cbn [_nc] in Hp.
      destruct nc as [k|]; cbn [below is_prefix_of] in Hp; [|done].
      by rewrite andb_false_r in Hp.
  - (* [e1] is the node's own entry *)
    destruct (other_face self _ e1 e2 Hreduce Hnot) as (e3 & H3 & Hf3);
      [by apply elem_of_app; right | done | done |].
    exists e3. split; [done|]. split; [|done].
    rewrite (own_entries_name _ _ _ Hown H1). by apply Hunder.
Qed.

(** C1, as the code has it: after any sequence of insertions, where
    [collapse] returns two entries with the same face such that the name of
    the first is a strict prefix of the name of the second, it also returns
    an entry under the first name that has another face. *)
Theorem collapse_prefix_pairs shortest (routes : list route)
    (res : list entry) (e1 e2 : entry) :
  collapse (RIB._tree (insert_all (RIB.__init__ shortest) routes)) = Ok res →
  e1 ∈ res → e2 ∈ res → e_fid e1 = e_fid e2 →
  strict_prefix (e_name e1) (e_name e2) →
  ∃ e3, e3 ∈ res ∧ is_prefix_of (e_name e1) (e_name e3) = true
        ∧ e_fid e3 ≠ e_fid e1.
Proof.
  intros Hres.
  apply (collapse_prefix_pairs_node
           (RIB._tree (insert_all (RIB.__init__ shortest) routes)));
    [|done].
  apply (insert_all_root shortest routes).
Qed.

(** The entries are prefix-minimal where they all have one face: there is
    at most one of them. *)
Lemma collapse_one_face shortest (routes : list route) (res : list entry) :
  collapse (RIB._tree (insert_all (RIB.__init__ shortest) routes)) = Ok res →
  (∀ e1 e2, e1 ∈ res → e2 ∈ res → e_fid e1 = e_fid e2) →
  prefix_minimal res.
Proof.
  intros Hres Hone e1 e2 H1 H2 Hfid Hstrict.
  destruct (collapse_prefix_pairs_node
              (RIB._tree (insert_all (RIB.__init__ shortest) routes))
              (proj2 (proj2 (insert_all_root shortest routes)))
              res Hres e1 e2)
    as (e3 & H3 & _ & Hne); try done.
  apply Hne. by apply Hone.
Qed.

(** *** The entry for a node whose candidates have one face *)

Lemma tuple_lt_dist (x best : Z * option Z) (lt : bool) :
  tuple_lt x best = Ok lt →
  if lt then (x.1 ≤ best.1)%Z else (best.1 ≤ x.1)%Z.
Proof.
  unfold tuple_lt. case_decide as Hd.
  - case_decide; [intros [= <-]; lia|]. destruct lt; intros _; lia.
  - intros [= <-]. destruct (x.1 <? best.1)%Z eqn:E; lia.
Qed.

Lemma min_from_spec best l m :
  min_from best l = Ok m →
  m ∈ best :: l ∧ (m.1 ≤ best.1)%Z ∧ ∀ x, x ∈ l → (m.1 ≤ x.1)%Z.
Proof.
  revert best. induction l as [|x l IH]; intros best; cbn [min_from].
  - intros [= <-]. split; [apply list_elem_of_here|]. split; [lia|].
    by intros x ?%elem_of_nil.
  - destruct (tuple_lt x best) as [lt|] eqn:Hlt; [|done].
    cbn [mbind result_bind]. intros Hm. apply tuple_lt_dist in Hlt.
    destruct (IH _ Hm) as (Hin & Hle & Hall). destruct lt.
    + split. { apply elem_of_cons in Hin as [->|Hin];
                 [apply list_elem_of_further, list_elem_of_here
                 | by do 2 apply list_elem_of_further]. }
      split; [lia|]. intros y [->|Hy]%elem_of_cons; [done | by apply Hall].
    + split. { apply elem_of_cons in Hin as [->|Hin];
                 [apply list_elem_of_here | by do 2 apply list_elem_of_further]. }
      split; [lia|]. intros y [->|Hy]%elem_of_cons; [lia | by apply Hall].
Qed.

(** What [min] returns on a list of [(distance, timeout)] pairs is one of
    the pairs, and none has a smaller distance. *)
Lemma py_min_spec l m :
  py_min l = Ok m → m ∈ l ∧ ∀ x, x ∈ l → (m.1 ≤ x.1)%Z.
Proof.
  destruct l as [|best l]; [done|]. cbn [py_min].
  intros (Hin & Hle & Hall)%min_from_spec. split; [done|].
  intros x [->|Hx]%elem_of_cons; [done | by apply Hall].
Qed.

Lemma own_entries_faces self own :
  NoDup (map fst (_distance_vector self)) →
  own_entries self = Ok own → NoDup (map e_fid own).
Proof.
  intros Hdv. unfold own_entries. case_decide; [|intros [= <-]; constructor].
  destruct (_collapse_shortest self).
  - destruct (_get_best_fid self); [|done]. cbn [mbind result_bind].
    intros [= <-]. apply NoDup_singleton.
  - intros [= <-]. rewrite !map_fmap, <- list_fmap_compose.
    by rewrite map_fmap in Hdv.
Qed.

(** Where the candidates of a node have exactly one face and are more
    than one, [collapse] returns at that node the single entry of the
    node's own name, that face, and the [min] of the candidates'
    [(distance, timeout)] pairs, and raises what that [min] raises. *)
Lemma collapse_single_face self (ch_res : list entry) (sf : Z) :
  wf self →
  candidates self = Ok ch_res →
  (list_to_set (map e_fid ch_res) : gset Z) = {[sf]} →
  1 < length ch_res →
  collapse self
  = m ← py_min (map (λ c : entry, (e_dist c, e_timeout c)) ch_res);
    Ok [(nclist self, sf, m.1, m.2)].
Proof.
  intros (Hdv & _ & _)%wf_unfold Hcand Hone Hmany.
  assert (∀ e, e ∈ ch_res → e_fid e = sf) as Hall.
  { intros e He. apply (elem_of_singleton (C := gset Z)). rewrite <- Hone.
    apply elem_of_list_to_set. rewrite map_fmap. by apply list_elem_of_fmap_2. }
  rewrite collapse_unfold. case_decide as Hleaf.
  { exfalso. apply nil_length_inv in Hleaf. unfold candidates in Hcand.
    rewrite Hleaf in Hcand. cbn [collapse_children mbind result_bind] in Hcand.
    destruct (own_entries self) as [own|] eqn:Hown; [|done].
    cbn [mbind result_bind] in Hcand.
    assert (prepend (_nc self) [] = []) as Hnil by by destruct (_nc self).
    rewrite Hnil in Hcand. injection Hcand as <-.
    apply own_entries_faces in Hown; [|done].
    destruct own as [|e1 [|e2 own]]; simpl in Hmany; [lia..|].
    cbn [map] in Hown. apply NoDup_cons in Hown as [Hfresh _].
    apply Hfresh. rewrite (Hall e1), <- (Hall e2).
    - apply list_elem_of_here.
    - apply list_elem_of_further, list_elem_of_here.
    - apply list_elem_of_here. }
  rewrite Hcand. cbn [mbind result_bind]. unfold reduce. rewrite Hone.
  rewrite decide_True by (split; [apply size_singleton | done]).
  rewrite elements_singleton.
  assert (filter (λ c : entry, e_fid c = sf) ch_res = ch_res) as ->; [|done].
  clear -Hall. induction ch_res as [|e l IH]; [done|].
  rewrite filter_cons_True by (apply Hall, list_elem_of_here).
  f_equal. apply IH. intros e' He'. by apply Hall, list_elem_of_further.
Qed.

(** *** The FIB *)

(** The entries [build_fib] returns are those of [collapse], in its
    order, none of them static. *)
Lemma build_fib_entries (rib : RIB.TreeRoutingInformationBase) :
  (RIB.build_fib rib).2
  = res ← collapse (RIB._tree rib);
    Ok (map (λ e : entry, FibEntry (e_name e) (e_fid e) false) res).
Proof.
  unfold RIB.build_fib, RIB.__iter__. cbn [snd].
  destruct (collapse (RIB._tree rib)) as [res|]; [|done].
  cbn [mbind result_bind]. f_equal.
  rewrite !map_fmap, <- list_fmap_compose. done.
Qed.

(** *** [collapse] on the store *)

Lemma extends_refl σ : Store.extends σ σ.
Proof. by split. Qed.

Lemma extends_trans σ1 σ2 σ3 :
  Store.extends σ1 σ2 → Store.extends σ2 σ3 → Store.extends σ1 σ3.
Proof.
  intros [Hl1 H1] [Hl2 H2]. split; [lia|].
  intros a Ha. rewrite H2 by lia. by apply H1.
Qed.

Lemma extends_app σ τ : Store.extends σ (σ ++ τ).
Proof.
  split; [rewrite length_app; lia|].
  intros a Ha. by apply lookup_app_l.
Qed.

Lemma deref_extends σ σ' a :
  Store.extends σ σ' → a < length σ → Store.deref σ' a = Store.deref σ a.
Proof. intros [_ Hext] Ha. unfold Store.deref. by rewrite Hext. Qed.

Lemma named_extends σ σ' (es : list Store.entry) :
  Store.extends σ σ' → Forall (λ c, Store.e_ref c < length σ) es →
  map (Store.named σ') es = map (Store.named σ) es.
Proof.
  intros Hext Hall. induction Hall as [|c es Hc _ IH]; [done|].
  cbn [map]. rewrite IH. f_equal. unfold Store.named.
  by rewrite (deref_extends σ σ').
Qed.

Lemma deref_copy σ l : Store.deref (σ ++ [l]) (length σ) = l.
Proof. unfold Store.deref. by rewrite list_lookup_middle. Qed.

Lemma built_nil σ σ' : Store.built σ σ' [].
Proof. split; [constructor | constructor]. Qed.

Lemma built_below σ σ' es :
  Store.built σ σ' es → Forall (λ c, Store.e_ref c < length σ') es.
Proof. intros [Hall _]. eapply Forall_impl; [done|]. intros c Hc. cbn in Hc. lia. Qed.

Lemma built_app σ σ1 σ2 σ3 r rs :
  Store.built σ σ1 r → Store.built σ2 σ3 rs →
  length σ ≤ length σ1 → length σ1 ≤ length σ2 → length σ2 ≤ length σ3 →
  Store.built σ σ3 (r ++ rs).
Proof.
  intros [Hr Hnr] [Hrs Hnrs] H01 H12 H23. split.
  - apply Forall_app. split.
    + eapply Forall_impl; [exact Hr|]. intros c Hc. cbn in Hc. lia.
    + eapply Forall_impl; [exact Hrs|]. intros c Hc. cbn in Hc. lia.
  - rewrite map_app. apply NoDup_app. split; [done|]. split; [|done].
    intros a Ha Ha'.
    rewrite map_fmap in Ha, Ha'.
    apply list_elem_of_fmap in Ha as (c & -> & Hc).
    apply list_elem_of_fmap in Ha' as (c' & Heq & Hc').
    rewrite Forall_forall in Hr, Hrs.
    specialize (Hr c Hc). specialize (Hrs c' Hc'). cbn in Hr, Hrs. lia.
Qed.

Lemma append_items_refines ncl items σ :
  Store.refines σ (Store.append_items ncl items σ)
    (Ok (map (λ x : Z * (Z * option Z), (ncl, x.1, x.2.1, x.2.2)) items)).
Proof.
  revert σ. induction items as [|x items IH]; intros σ.
  - split; [apply extends_refl|]. split; [apply built_nil | done].
  - cbn [Store.append_items]. unfold mbind, Store.M_bind, Store.copy.
    specialize (IH (σ ++ [ncl])).
    destruct (Store.append_items ncl items (σ ++ [ncl])) as [σ' [rest|e]];
      destruct IH as [Hext IH]; cbn [fst snd] in *.
    + destruct IH as [Hbuilt Heq].
      assert (length (σ ++ [ncl]) = S (length σ)) as Hlen
        by (rewrite length_app; cbn; lia).
      split; [eapply extends_trans; [apply extends_app | done]|].
      cbn [fst snd mret Store.M_ret]. split.
      * destruct Hext as [Hle _]. destruct Hbuilt as [Hall Hnd].
        split.
        -- constructor; [cbn; lia|].
           eapply Forall_impl; [exact Hall|]. intros c Hc. cbn in Hc. lia.
        -- cbn [map]. apply NoDup_cons. split; [|done].
           intros Hin. rewrite map_fmap in Hin.
           apply list_elem_of_fmap in Hin as (c & Hc & Hin).
           rewrite Forall_forall in Hall. specialize (Hall c Hin).
           cbn in Hall. unfold Store.e_ref in Hc at 1. cbn in Hc. lia.
      * cbn [map]. injection Heq as Heq. rewrite <- Heq. do 2 f_equal.
        unfold Store.named, Store.e_ref. cbn [fst snd].
        rewrite (deref_extends (σ ++ [ncl]) σ') by (done || lia).
        by rewrite deref_copy.
    + split; [eapply extends_trans; [apply extends_app | done]|]. done.
Qed.

Lemma store_own_entries_refines self σ :
  Store.refines σ (Store.own_entries self σ) (own_entries self).
Proof.
  unfold Store.own_entries, own_entries. case_decide.
  - destruct (_collapse_shortest self).
    + unfold mbind, mret, Store.M_bind, Store.M_ret, Store.copy, Store.lift.
      destruct (_get_best_fid self) as [best|e]; cbn [result_bind].
      * split; [apply extends_app|]. cbn [fst snd]. split.
        -- split; [|apply NoDup_singleton].
           constructor; [|constructor]. rewrite length_app. cbn. lia.
        -- cbn [map]. unfold Store.named, Store.e_ref. cbn [fst snd].
           by rewrite deref_copy.
      * split; [apply extends_app | done].
    + apply append_items_refines.
  - split; [apply extends_refl|]. split; [apply built_nil | done].
Qed.

Lemma insert_each_lookup nc (es : list Store.entry) σ :
  NoDup (map Store.e_ref es) →
  ∃ σ', Store.insert_each nc es σ = (σ', Ok ())
        ∧ length σ' = length σ
        ∧ ∀ a, σ' !! a
               = if decide (a ∈ map Store.e_ref es)
                 then cons nc <$> σ !! a else σ !! a.
Proof.
  revert σ. induction es as [|c es IH]; intros σ Hnd.
  - exists σ. split; [done|]. split; [done|]. intros a.
    rewrite decide_False; [done|]. cbn. apply not_elem_of_nil.
  - cbn [map] in Hnd. apply NoDup_cons in Hnd as [Hc Hnd].
    destruct (IH (alter (cons nc) (Store.e_ref c) σ) Hnd)
      as (σ' & Hrun & Hlen & Hlook).
    exists σ'. split; [exact Hrun|]. split.
    { by rewrite Hlen, length_alter. }
    intros a. rewrite Hlook. cbn [map].
    destruct (decide (a = Store.e_ref c)) as [->|Hne].
    + rewrite decide_False by done.
      rewrite decide_True by apply list_elem_of_here.
      apply list_lookup_alter_eq.
    + rewrite list_lookup_alter_ne by (intros Heq; by apply Hne).
      destruct (decide (a ∈ map Store.e_ref es)) as [Hin|Hin].
      * rewrite decide_True; [done|]. by apply list_elem_of_further.
      * rewrite decide_False; [done|].
        intros [?|?]%elem_of_cons; done.
Qed.

(** The lists of the entries get the component in front; every other
    list stays as it is. *)
Lemma store_prepend_spec nc (es : list Store.entry) σ :
  NoDup (map Store.e_ref es) →
  Forall (λ c, Store.e_ref c < length σ) es →
  ∃ σ', Store.prepend nc es σ = (σ', Ok ())
        ∧ length σ' = length σ
        ∧ (∀ a, a ∉ map Store.e_ref es → σ' !! a = σ !! a)
        ∧ map (Store.named σ') es = prepend nc (map (Store.named σ) es).
Proof.
  intros Hnd Hall. destruct nc as [nc|]; cbn [Store.prepend prepend].
  - destruct (insert_each_lookup nc es σ Hnd) as (σ' & Hrun & Hlen & Hlook).
    exists σ'. split; [done|]. split; [done|]. split.
    + intros a Ha. rewrite Hlook. by rewrite decide_False.
    + rewrite map_map. apply map_ext_in. intros c Hc%list_elem_of_In.
      rewrite Forall_forall in Hall. specialize (Hall c Hc). cbn in Hall.
      unfold Store.named, Store.deref, e_name, e_fid, e_dist, e_timeout.
      cbn [fst snd]. rewrite Hlook.
      rewrite decide_True
        by (rewrite map_fmap; apply list_elem_of_fmap; by exists c).
      apply lookup_lt_is_Some in Hall as [l ->]. done.
  - exists σ. by repeat split.
Qed.

Lemma named_filter σ sf (es : list Store.entry) :
  filter (λ c : entry, e_fid c = sf) (map (Store.named σ) es)
  = map (Store.named σ) (filter (λ c : Store.entry, Store.e_fid c = sf) es).
Proof.
  induction es as [|c es IH]; [done|]. cbn [map].
  rewrite !filter_cons.
  change (e_fid (Store.named σ c)) with (Store.e_fid c).
  destruct (decide (Store.e_fid c = sf)); cbn [map]; by rewrite IH.
Qed.

Lemma store_reduce_refines self σ0 σ (es : list Store.entry) :
  Store.extends σ0 σ → Store.built σ0 σ es →
  Store.refines σ0 (Store.reduce self es σ)
    (reduce self (map (Store.named σ) es)).
Proof.
  intros Hext Hbuilt. unfold Store.reduce, reduce.
  rewrite map_map, length_map.
  change (map (λ x, e_fid (Store.named σ x)) es) with (map Store.e_fid es).
  case_decide as Hone.
  - destruct (elements _) as [|sf ?].
    + split; [done | done].
    + rewrite named_filter, map_map.
      change (map (λ x, (e_dist (Store.named σ x), e_timeout (Store.named σ x))))
        with (map (λ c : Store.entry, (Store.e_dist c, Store.e_timeout c))).
      unfold mbind, mret, Store.M_bind, Store.M_ret, Store.copy, Store.lift.
      destruct (py_min _) as [m|e]; cbn [result_bind].
      * split; [eapply extends_trans; [done | apply extends_app]|].
        cbn [fst snd]. split.
        -- split; [|apply NoDup_singleton].
           constructor; [|constructor]. rewrite length_app.
           destruct Hext as [Hle _]. cbn. lia.
        -- cbn [map]. unfold Store.named, Store.e_ref. cbn [fst snd].
           by rewrite deref_copy.
      * split; [done | done].
  - split; [done|]. by split.
Qed.

Lemma store_collapse_unfold self :
  Store.collapse self
  = if decide (length (_children self) = 0) then Store.own_entries self
    else
      ch_res ← Store.collapse_children (_children self);
      _ ← Store.prepend (_nc self) ch_res;
      own ← Store.own_entries self;
      Store.reduce self (ch_res ++ own).
Proof.
  destruct self as [s p cs nc dv]. cbn [Store.collapse _children].
  by case_decide.
Qed.

Lemma store_collapse_children_refines cs σ :
  Forall (λ c, ∀ σ, Store.refines σ (Store.collapse c σ) (collapse c)) cs →
  Store.refines σ (Store.collapse_children cs σ) (collapse_children cs).
Proof.
  intros Hall. revert σ. induction Hall as [|c cs Hc _ IH]; intros σ.
  - split; [apply extends_refl|]. split; [apply built_nil | done].
  - cbn [Store.collapse_children collapse_children].
    unfold mbind at 1 3, Store.M_bind.
    specialize (Hc σ).
    destruct (Store.collapse c σ) as [σ1 [r|e]];
      destruct Hc as [Hext1 Hc]; cbn [fst snd] in *; [|by rewrite Hc].
    destruct Hc as [Hb1 ->]. cbn [result_bind].
    unfold mbind, mret, Store.M_bind, Store.M_ret.
    specialize (IH σ1).
    destruct (Store.collapse_children cs σ1) as [σ2 [rs|e]];
      destruct IH as [Hext2 IH]; cbn [fst snd] in *.
    + destruct IH as [Hb2 ->]. cbn [result_bind].
      split; [by eapply extends_trans|]. cbn [fst snd]. split.
      * apply (built_app σ σ1 σ1 σ2); try done;
          [apply Hext1 | apply Hext2].
      * rewrite map_app. do 2 f_equal. symmetry.
        apply named_extends; [done|]. by eapply built_below.
    + rewrite IH. split; [by eapply extends_trans | done].
Qed.

(** [collapse] on the store against [collapse] by value: the lists that
    were there are left alone, the same exception is raised, and the
    entries returned have lists of their own that read as the entries
    computed by value. *)
Lemma store_collapse_refines n :
  ∀ σ, Store.refines σ (Store.collapse n σ) (collapse n).
Proof.
  induction n as [s p cs nc dv IH] using node_ind. intros σ.
  rewrite store_collapse_unfold, collapse_unfold. cbn [_children _nc].
  case_decide; [apply store_own_entries_refines|].
  unfold candidates. cbn [_children _nc].
  set (self := RIBTreeNode s p cs nc dv).
  pose proof (store_collapse_children_refines cs σ IH) as Hch.
  unfold mbind at 1, Store.M_bind.
  destruct (Store.collapse_children cs σ) as [σ1 [ch|e]];
    destruct Hch as [Hext1 Hch]; cbn [fst snd] in *; [|by rewrite Hch].
  destruct Hch as [Hb1 ->]. unfold mbind, Store.M_bind. cbn [result_bind].
  destruct (store_prepend_spec nc ch σ1) as (σ2 & -> & Hlen2 & Hkeep & Hnames);
    [apply Hb1 | by eapply built_below |].
  assert (Store.extends σ σ2) as Hext2.
  { destruct Hext1 as [Hle Hsame]. split; [lia|]. intros a Ha.
    rewrite Hkeep; [by apply Hsame|].
    intros Hin. rewrite map_fmap in Hin.
    apply list_elem_of_fmap in Hin as (c & -> & Hc).
    destruct Hb1 as [Hall _]. rewrite Forall_forall in Hall.
    specialize (Hall c Hc). cbn in Hall. lia. }
  pose proof (store_own_entries_refines self σ2) as Hown.
  destruct (Store.own_entries self σ2) as [σ3 [own|e]];
    destruct Hown as [Hext3 Hown]; cbn [fst snd] in *.
  - destruct Hown as [Hb3 ->]. cbn [result_bind].
    assert (Store.built σ σ3 (ch ++ own)) as Hbuilt.
    { apply (built_app σ σ1 σ2 σ3); try done;
        [apply Hext1 | lia | apply Hext3]. }
    assert (prepend nc (map (Store.named σ1) ch) ++ map (Store.named σ3) own
            = map (Store.named σ3) (ch ++ own)) as ->.
    { rewrite map_app, <- Hnames. f_equal. symmetry.
      apply named_extends; [done|].
      rewrite Hlen2. by eapply built_below. }
    apply store_reduce_refines; [by eapply extends_trans | done].
  - rewrite Hown. cbn [result_bind].
    split; [by eapply extends_trans | done].
Qed.

(** C7: [build_fib] called twice in succession on the same RIB returns
    lists of identical contents: the same [(name, face, static=False)]
    entries in the same order, or both calls raise the same exception.
    The lists that hold the names are changed in place while [collapse]
    runs, so the contents are read from the store: the second call leaves
    the names of the first list as they were, and both lists read as the
    list that [build_fib] computes by value. *)
Theorem build_fib_twice (rib : RIB.TreeRoutingInformationBase)
    (σ : list (list bytes)) :
  let first := Store.build_fib rib σ in
  let second := Store.build_fib rib first.1 in
  match first.2, second.2 with
  | Ok fib1, Ok fib2 =>
      Store.contents second.1 fib2 = Store.contents first.1 fib1
      ∧ Store.contents second.1 fib1 = Store.contents first.1 fib1
      ∧ (RIB.build_fib rib).2 = Ok (Store.contents first.1 fib1)
  | Raise e1, Raise e2 => e1 = e2 ∧ (RIB.build_fib rib).2 = Raise e1
  | _, _ => False
  end.
Proof.
  assert (∀ σ (es : list Store.entry),
            Store.contents σ
              (map (λ y : nat * Z * Z * option Z, (y.1.1.1, y.1.1.2, false))
                 (map (λ c : Store.entry,
                         (Store.e_ref c, Store.e_fid c, Store.e_dist c,
                          Store.e_timeout c)) es))
            = map (λ e : entry, FibEntry (e_name e) (e_fid e) false)
                (map (Store.named σ) es)) as Hcontents.
  { intros σ' es. unfold Store.contents. rewrite !map_map. done. }
  cbn zeta. rewrite build_fib_entries.
  unfold Store.build_fib, Store.__iter__.
  unfold mbind, mret, Store.M_bind, Store.M_ret.
  pose proof (store_collapse_refines (RIB._tree rib) σ) as H1.
  destruct (Store.collapse (RIB._tree rib) σ) as [σ1 [es1|e1]];
    destruct H1 as [Hext1 H1]; cbn [fst snd] in *.
  - destruct H1 as [Hb1 Hpure1].
    pose proof (store_collapse_refines (RIB._tree rib) σ1) as H2.
    destruct (Store.collapse (RIB._tree rib) σ1) as [σ2 [es2|e2]];
      destruct H2 as [Hext2 H2]; cbn [fst snd] in *.
    + destruct H2 as [Hb2 Hpure2]. rewrite !Hcontents.
      assert (map (Store.named σ2) es1 = map (Store.named σ1) es1) as Hsame.
      { apply named_extends; [done|]. by eapply built_below. }
      rewrite Hsame. split; [|split; [done|]].
      * f_equal. rewrite Hpure1 in Hpure2. by injection Hpure2.
      * by rewrite Hpure1.
    + by rewrite Hpure1 in H2.
  - pose proof (store_collapse_refines (RIB._tree rib) σ1) as H2.
    destruct (Store.collapse (RIB._tree rib) σ1) as [σ2 [es2|e2]];
      destruct H2 as [Hext2 H2]; cbn [fst snd] in *.
    + destruct H2 as [_ Hpure2]. by rewrite H1 in Hpure2.
    + rewrite H1 in H2. injection H2 as ->. by rewrite H1.
Qed.

(** *** Routes: insertion and lookup *)

Lemma dict_get_set {V : Type} (k k' : Z) (v : V) (d : list (Z * V)) :
  dict_get k' (dict_set k v d)
  = if decide (k' = k) then Some v else dict_get k' d.
Proof.
  induction d as [|[k0 v0] d IH]; cbn [dict_set dict_get].
  - destruct (decide (k = k')), (decide (k' = k)); congruence.
  - destruct (decide (k0 = k)) as [->|Hk0]; cbn [dict_get].
    + destruct (decide (k = k')), (decide (k' = k)); congruence.
    + rewrite IH. destruct (decide (k0 = k')), (decide (k' = k)); congruence.
Qed.

Lemma children_get_set child k cs :
  children_get k (children_set child cs)
  = if decide (k = _nc child) then Some child else children_get k cs.
Proof.
  induction cs as [|c cs IH]; cbn [children_set children_get].
  - destruct (decide (_nc child = k)), (decide (k = _nc child)); congruence.
  - destruct (decide (_nc c = _nc child)) as [Hc|Hc]; cbn [children_get].
    + destruct (decide (_nc child = k)), (decide (k = _nc child)),
        (decide (_nc c = k)); congruence.
    + rewrite IH.
      destruct (decide (_nc c = k)), (decide (k = _nc child)); congruence.
Qed.

Lemma route_of_nil n fid :
  route_of n [] fid = dict_get fid (_distance_vector n).
Proof. done. Qed.

Lemma route_of_cons n c (name : Name) fid :
  route_of n (c :: name) fid
  = child ← children_get (Some c) (_children n); route_of child name fid.
Proof.
  unfold route_of. cbn [find_node].
  by destruct (children_get (Some c) (_children n)).
Qed.

Lemma route_of_set_parent p n (name : Name) fid :
  route_of (set_parent p n) name fid = route_of n name fid.
Proof. by destruct name. Qed.

Lemma route_of_init nc shortest (name : Name) fid :
  route_of (__init__ nc shortest) name fid = None.
Proof. by destruct name. Qed.

(** The routes of the tree that the second loop of [insert] builds below
    a node that has no child for the first of the components left. *)
Lemma insert_create_routes shortest node comps fid distance timeout node'
    (name : Name) fid' :
  match comps with
  | [] => True
  | c :: _ => children_get (Some c) (_children node) = None
  end →
  insert_create shortest node comps fid distance timeout = Ok node' →
  route_of node' name fid'
  = if decide (name = comps ∧ fid' = fid) then Some (distance, timeout)
    else route_of node name fid'.
Proof.
  revert node node' name. induction comps as [|c comps IH];
    intros node node' name Hfree; cbn [insert_create].
  - intros [= <-]. destruct name as [|c' name].
    + rewrite !route_of_nil. cbn [set_distance_vector _distance_vector].
      rewrite dict_get_set.
      destruct (decide (fid' = fid)).
      * by rewrite decide_True.
      * rewrite decide_False; [done | by intros [_ ?]].
    + rewrite decide_False by (by intros [? _]). done.
  - destruct (insert_create_total shortest (__init__ (Some c) shortest) comps
                fid distance timeout) as (child & Hchild & Hp & Hnc & _).
    rewrite Hchild. cbn [mbind result_bind]. unfold _add_child.
    rewrite Hp. cbn [__init__ _parent]. intros [= <-].
    destruct name as [|c' name].
    + rewrite decide_False by (by intros [? _]). done.
    + rewrite !route_of_cons. cbn [set_children _children].
      rewrite children_get_set. cbn [set_parent _nc]. rewrite Hnc.
      cbn [__init__ _nc].
      destruct (decide (Some c' = Some c)) as [[= ->]|Hc].
      * cbn [mbind option_bind]. rewrite route_of_set_parent.
        assert (match comps with
                | [] => True
                | c0 :: _ =>
                    children_get (Some c0)
                      (_children (__init__ (Some c) shortest)) = None
                end) as Hfresh by (by destruct comps).
        rewrite (IH _ _ name Hfresh Hchild), route_of_init, Hfree.
        cbn [mbind option_bind].
        destruct (decide (name = comps ∧ fid' = fid)) as [[-> ->]|Hne].
        -- by rewrite decide_True.
        -- rewrite decide_False; [done|]. intros [[= ->] ->]. by apply Hne.
      * rewrite decide_False; [done|]. intros [[= -> _] _]. done.
Qed.

(** The routes of the tree after the two loops of [insert]: the route
    inserted, and every other route as it was. *)
Lemma insert_walk_routes shortest node comps fid distance timeout node'
    (name : Name) fid' :
  insert_walk shortest node comps fid distance timeout = Ok node' →
  route_of node' name fid'
  = if decide (name = comps ∧ fid' = fid) then Some (distance, timeout)
    else route_of node name fid'.
Proof.
  revert node node' name. induction comps as [|c comps IH];
    intros node node' name.
  - by apply insert_create_routes.
  - cbn [insert_walk].
    destruct (children_get (Some c) (_children node)) as [child|] eqn:Hget.
    + destruct (insert_walk_total shortest child comps fid distance timeout)
        as (child' & Hchild & Hp & Hnc & _).
      rewrite Hchild. cbn [mbind result_bind]. intros [= <-].
      destruct name as [|c' name].
      * rewrite decide_False by (by intros [? _]). done.
      * rewrite !route_of_cons. cbn [set_children _children].
        rewrite children_get_set, Hnc.
        destruct (children_get_Some _ _ _ Hget) as [_ Hk]. rewrite Hk.
        destruct (decide (Some c' = Some c)) as [[= ->]|Hc].
        -- rewrite Hget. cbn [mbind option_bind].
           rewrite (IH _ _ name Hchild).
           destruct (decide (name = comps ∧ fid' = fid)) as [[-> ->]|Hne].
           ++ by rewrite decide_True.
           ++ rewrite decide_False; [done|]. intros [[= ->] ->]. by apply Hne.
        -- rewrite decide_False; [done|]. intros [[= -> _] _]. done.
    + by apply insert_create_routes.
Qed.

Lemma insert_routes self (name : Name) fid distance timeout
    (name' : Name) fid' :
  _parent self = false →
  route_of (insert self name fid distance timeout).1 name' fid'
  = if decide (name' = name ∧ fid' = fid) then Some (distance, timeout)
    else route_of self name' fid'.
Proof.
  intros Hroot. unfold insert. rewrite Hroot.
  destruct (insert_walk_total (_collapse_shortest self) self (components name)
              fid distance timeout) as (self' & Hwalk & _).
  rewrite Hwalk. cbn [fst]. by apply (insert_walk_routes _ _ _ _ _ _ _ _ _ Hwalk).
Qed.

(** X1: the route that [insert] is given on the root is the route the tree
    holds afterwards for that name and face, whatever route it held for
    them before. *)
Theorem insert_then_lookup self (name : Name) fid distance timeout :
  _parent self = false →
  route_of (insert self name fid distance timeout).1 name fid
  = Some (distance, timeout).
Proof.
  intros Hroot. rewrite insert_routes by done. by rewrite decide_True.
Qed.

(** X2: [insert] on the root changes no route but the one it is given:
    the route of any other name, and of the same name by any other face,
    is afterwards what it was, present or not. *)
Theorem insert_keeps_other_routes self (name : Name) fid distance timeout
    (name' : Name) fid' :
  _parent self = false →
  name' ≠ name ∨ fid' ≠ fid →
  route_of (insert self name fid distance timeout).1 name' fid'
  = route_of self name' fid'.
Proof.
  intros Hroot Hother. rewrite insert_routes by done.
  rewrite decide_False; [done|]. intros [-> ->]. by destruct Hother.
Qed.

(** X3: on a node without parent [insert] returns, for every name, and
    what it leaves is again a root, with the node's own name component,
    that keeps the invariants of the tree. *)
Theorem insert_returns_well_formed self (name : Name) fid distance timeout :
  _parent self = false → wf self →
  let after := insert self name fid distance timeout in
  after.2 = Ok () ∧ _parent after.1 = false ∧ _nc after.1 = _nc self
  ∧ wf after.1.
Proof.
  intros Hroot Hwf after. subst after.
  destruct (insert_at_root self name fid distance timeout Hroot)
    as (self' & -> & Hp & Hnc & Hwf').
  cbn [fst snd]. auto.
Qed.

(** *** Routes and ageing *)

Lemma filter_agree {A : Type} (P Q : A → Prop) `{∀ x, Decision (P x)}
    `{∀ x, Decision (Q x)} (l : list A) :
  (∀ x, x ∈ l → P x ↔ Q x) → filter P l = filter Q l.
Proof.
  induction l as [|a l IH]; intros Hall; [done|].
  rewrite !filter_cons.
  assert (filter P l = filter Q l) as ->.
  { apply IH. intros x Hx. by apply Hall, list_elem_of_further. }
  destruct (decide (P a)) as [Hp|Hp], (decide (Q a)) as [Hq|Hq]; try done.
  - exfalso. by apply Hq, (Hall a (list_elem_of_here _ _)).
  - exfalso. by apply Hp, (Hall a (list_elem_of_here _ _)).
Qed.

Lemma dict_del_filter {V : Type} (k : Z) (d : list (Z * V)) :
  NoDup (map fst d) → dict_del k d = filter (λ x, x.1 ≠ k) d.
Proof.
  induction d as [|[k' v'] d IH]; cbn [dict_del map fst]; [done|].
  intros [Hfresh Hd]%NoDup_cons. rewrite filter_cons. cbn [fst].
  destruct (decide (k' = k)) as [->|Hk].
  - rewrite decide_False by (by intros ?). symmetry.
    rewrite <- (filter_agree (λ _, True) (λ x, x.1 ≠ k)).
    + clear. induction d as [|a d IH]; [done|].
      by rewrite filter_cons_True, IH.
    + intros x Hx. split; [|done]. intros _ Hxk. apply Hfresh.
      rewrite map_fmap. apply list_elem_of_fmap. by exists x.
  - rewrite decide_True by done. by rewrite IH.
Qed.

Lemma foldl_dict_del_filter {V : Type} (ks : list Z) (d : list (Z * V)) :
  NoDup (map fst d) →
  foldl (λ d k, dict_del k d) d ks = filter (λ x, x.1 ∉ ks) d.
Proof.
  revert d. induction ks as [|k ks IH]; intros d Hd; cbn [foldl].
  - symmetry. rewrite <- (filter_agree (λ _, True) (λ x, x.1 ∉ [])).
    + clear. induction d as [|a d IH]; [done|].
      by rewrite filter_cons_True, IH.
    + intros x _. split; [intros _; apply not_elem_of_nil | done].
  - rewrite IH by by apply dict_del_NoDup.
    rewrite dict_del_filter by done. rewrite list_filter_filter.
    apply filter_agree. intros x _. rewrite not_elem_of_cons. tauto.
Qed.

(** The distance vector after [ageing] holds the entries that are not out
    of date, in the order they had. *)
Lemma expire_filter now dv :
  NoDup (map fst dv) →
  expire now dv = filter (λ x, outdated now x = false) dv.
Proof.
  intros Hdv. unfold expire. rewrite foldl_dict_del_filter by done.
  apply filter_agree. intros x Hx. split.
  - intros Hnot. destruct (outdated now x) eqn:Hout; [|done].
    exfalso. apply Hnot. rewrite map_fmap. apply list_elem_of_fmap.
    exists x. split; [done|]. by apply list_elem_of_filter.
  - intros Hout Hin. rewrite map_fmap in Hin.
    apply list_elem_of_fmap in Hin as (y & Hk & Hy).
    apply list_elem_of_filter in Hy as [Hy Hyin].
    assert (x = y) as ->; [|congruence].
    by apply (NoDup_map_inj fst dv).
Qed.

Lemma dict_get_filter {V : Type} (P : Z * V → Prop) `{∀ x, Decision (P x)}
    (k : Z) (d : list (Z * V)) :
  NoDup (map fst d) →
  dict_get k (filter P d)
  = match dict_get k d with
    | Some v => if decide (P (k, v)) then Some v else None
    | None => None
    end.
Proof.
  induction d as [|[k' v'] d IH]; cbn [dict_get map fst]; [done|].
  intros [Hfresh Hd]%NoDup_cons. rewrite filter_cons.
  destruct (decide (k' = k)) as [->|Hk].
  - destruct (decide (P (k, v'))); cbn [dict_get].
    + by rewrite decide_True.
    + rewrite IH by done.
      destruct (dict_get k d) as [v|] eqn:Hget; [|done].
      exfalso. apply Hfresh. clear -Hget.
      induction d as [|[k0 v0] d IHd]; cbn [dict_get map fst] in *; [done|].
      destruct (decide (k0 = k)) as [->|?];
        [apply list_elem_of_here | apply list_elem_of_further; auto].
  - destruct (decide (P (k', v'))); cbn [dict_get].
    + rewrite decide_False by done. by apply IH.
    + by apply IH.
Qed.

Lemma expire_get now dv fid :
  NoDup (map fst dv) →
  dict_get fid (expire now dv) = live now (dict_get fid dv).
Proof.
  intros Hdv. rewrite expire_filter, dict_get_filter by done.
  destruct (dict_get fid dv) as [[dist [timeout|]]|]; cbn [live]; [|done..].
  unfold outdated. cbn [snd].
  destruct (timeout <=? now)%Z; by case_decide.
Qed.

Lemma children_get_ageing now cs k :
  NoDup (map _nc cs) →
  children_get k (ageing_children now cs)
  = match children_get k cs with
    | Some child =>
        if (ageing now child).2 then None else Some (ageing now child).1
    | None => None
    end.
Proof.
  induction cs as [|c cs IH]; cbn [ageing_children children_get map]; [done|].
  intros [Hfresh Hcs]%NoDup_cons.
  destruct (ageing_node now c) as (_ & _ & Hnc & _).
  destruct (ageing now c) as [c' removed] eqn:Hc. cbn [fst snd] in *.
  destruct (decide (_nc c = k)) as [Hk|Hk].
  - destruct removed; cbn [children_get]; rewrite ?Hc; cbn [fst snd].
    + rewrite IH by done.
      destruct (children_get k cs) as [child|] eqn:Hget; [|done].
      exfalso. apply Hfresh. apply children_get_Some in Hget as [Hin Hkey].
      rewrite Hk, <- Hkey, map_fmap. by apply list_elem_of_fmap_2.
    + by rewrite Hnc, decide_True.
  - destruct removed; cbn [children_get]; [by apply IH|].
    rewrite Hnc, decide_False by done. by apply IH.
Qed.

Lemma ageing_routes now n (name : Name) fid :
  wf n →
  route_of (ageing now n).1 name fid = live now (route_of n name fid).
Proof.
  revert n. induction name as [|c name IH]; intros n Hwf;
    destruct (ageing_node now n) as (Hchildren & Hvector & _ & _);
    apply wf_unfold in Hwf as (Hdv & Hcs & Hall).
  - rewrite !route_of_nil, Hvector. by apply expire_get.
  - rewrite !route_of_cons, Hchildren, children_get_ageing by done.
    destruct (children_get (Some c) (_children n)) as [child|] eqn:Hget;
      [|done].
    cbn [mbind option_bind].
    apply children_get_Some in Hget as [Hin _].
    rewrite Forall_forall in Hall. destruct (Hall child Hin) as (Hp & _ & Hwf).
    rewrite <- (IH child Hwf).
    destruct (ageing_node now child) as (Hch & Hv & _ & _).
    destruct (ageing now child) as [child' removed] eqn:Hchild.
    cbn [fst snd] in *. destruct removed; [|done]. cbn [mbind option_bind].
    rewrite ageing_unfold in Hchild. cbn zeta in Hchild. rewrite Hp in Hchild.
    destruct (bool_decide (length (expire now (_distance_vector child)) = 0))
      eqn:Hdv0; [|done].
    destruct (bool_decide (length (ageing_children now (_children child)) = 0))
      eqn:Hcs0; [|done].
    apply bool_decide_eq_true, nil_length_inv in Hdv0, Hcs0.
    destruct name as [|c' name].
    + by rewrite route_of_nil, Hv, Hdv0.
    + by rewrite route_of_cons, Hch, Hcs0.
Qed.

(** X4: [ageing(now)] on a tree removes exactly the routes that are out of
    date: a route without timeout, or with a timeout after [now], is
    afterwards what it was, and a route whose timeout is at or before
    [now] is no longer there. *)
Theorem ageing_removes_outdated_routes now tree (name : Name) fid :
  wf tree →
  route_of (ageing now tree).1 name fid
  = match route_of tree name fid with
    | Some (dist, Some timeout) =>
        if (timeout <=? now)%Z then None else Some (dist, Some timeout)
    | r => r
    end.
Proof.
  intros Hwf. rewrite ageing_routes by done. unfold live.
  by destruct (route_of tree name fid) as [[dist [timeout|]]|].
Qed.

Lemma ageing_children_fixed now cs :
  Forall (λ c, ageing now c = (c, false)) cs → ageing_children now cs = cs.
Proof.
  induction 1 as [|c cs Hc Hcs IH]; cbn [ageing_children]; [done|].
  by rewrite Hc, IH.
Qed.

Lemma ageing_twice now tree :
  wf tree → ageing now (ageing now tree).1 = ((ageing now tree).1, false).
Proof.
  induction tree as [s p cs nc dv IH] using node_ind.
  intros (Hdv & Hcs & Hall)%wf_unfold. cbn [_distance_vector _children] in *.
  set (self := RIBTreeNode s p cs nc dv).
  assert (ageing_children now (ageing_children now cs)
          = ageing_children now cs) as Hfix.
  { apply ageing_children_fixed, Forall_forall.
    intros c' (c & Hin & -> & _)%ageing_children_elem.
    rewrite Forall_forall in IH, Hall. apply IH; [done|]. by apply Hall. }
  assert (expire now (expire now dv) = expire now dv) as Hexp.
  { rewrite (expire_filter now (expire now dv)) by by apply expire_NoDup.
    rewrite expire_filter by done. rewrite list_filter_filter.
    apply filter_agree. tauto. }
  rewrite (ageing_unfold now self). cbn zeta. cbn [self _parent _children
    _distance_vector _collapse_shortest _nc].
  destruct (p && bool_decide (length (expire now dv) = 0)
            && bool_decide (length (ageing_children now cs) = 0)) eqn:Hcond;
    cbn [fst]; rewrite ageing_unfold; cbn zeta;
    cbn [_parent _children _distance_vector _collapse_shortest _nc];
    rewrite Hfix, Hexp.
  - done.
  - by rewrite Hcond.
Qed.

(** X5: [ageing] with the same reference time a second time changes
    nothing: the tree is as the first call left it, and the node does not
    remove itself. *)
Theorem ageing_idempotent now tree :
  wf tree →
  let once := (ageing now tree).1 in
  ageing now once = (once, false).
Proof. intros Hwf. by apply ageing_twice. Qed.

(** X6: [ageing] keeps the invariants of the tree, the node's own name
    component, and the parent reference of a node that does not remove
    itself. *)
Theorem ageing_keeps_invariants now tree :
  wf tree →
  let after := ageing now tree in
  wf after.1 ∧ _nc after.1 = _nc tree
  ∧ (after.2 = false → _parent after.1 = _parent tree).
Proof.
  intros Hwf after. split; [by apply ageing_wf|].
  split; [by apply (ageing_node now tree) | by apply ageing_kept].
Qed.

(** *** The face [_get_best_fid] picks *)

Lemma min_by_key_first {A : Type} (key : A → Z) (p1 p2 : list A) (acc : A)
    (l : list A) :
  (∀ x, x ∈ p1 → (key acc < key x)%Z) →
  (∀ x, x ∈ p2 → (key acc ≤ key x)%Z) →
  ∃ l1 l2,
    p1 ++ acc :: p2 ++ l = l1 ++ min_by_key key acc l :: l2
    ∧ (∀ x, x ∈ l1 → (key (min_by_key key acc l) < key x)%Z)
    ∧ (∀ x, x ∈ l2 → (key (min_by_key key acc l) ≤ key x)%Z).
Proof.
  revert p1 p2 acc. induction l as [|y l IH]; intros p1 p2 acc Hp1 Hp2;
    cbn [min_by_key].
  - exists p1, p2. by rewrite app_nil_r.
  - destruct (key y <? key acc)%Z eqn:Hlt.
    + destruct (IH (p1 ++ acc :: p2) [] y) as (l1 & l2 & Heq & H1 & H2).
      * intros x [Hx | [-> | Hx]%elem_of_cons]%elem_of_app.
        -- specialize (Hp1 x Hx). lia.
        -- lia.
        -- specialize (Hp2 x Hx). lia.
      * by intros x ?%elem_of_nil.
      * exists l1, l2. split; [|done]. rewrite <- Heq.
        by rewrite <- app_assoc.
    + destruct (IH p1 (p2 ++ [y]) acc) as (l1 & l2 & Heq & H1 & H2).
      * done.
      * intros x [Hx | ->%list_elem_of_singleton]%elem_of_app; [auto | lia].
      * exists l1, l2. split; [|done]. rewrite <- Heq.
        by rewrite <- app_assoc.
Qed.

Lemma get_best_fid_split self :
  match _get_best_fid self with
  | Ok (fid, dist, timeout) =>
      ∃ l1 l2,
        _distance_vector self = l1 ++ (fid, (dist, timeout)) :: l2
        ∧ (∀ x, x ∈ l1 → (dist < x.2.1)%Z)
        ∧ (∀ x, x ∈ l2 → (dist ≤ x.2.1)%Z)
  | Raise e => e = ValueError ∧ _distance_vector self = []
  end.
Proof.
  unfold _get_best_fid. destruct (_distance_vector self) as [|x l]; [done|].
  destruct (min_by_key_first (λ x : Z * (Z * option Z), x.2.1) [] [] x l)
    as (l1 & l2 & Heq & H1 & H2); [by intros ? ?%elem_of_nil..|].
  destruct (min_by_key _ x l) as [fid [dist timeout]].
  exists l1, l2. done.
Qed.

(** X7: [_get_best_fid] returns the first entry of the distance vector, in
    the order of insertion, whose distance is minimal: every entry before
    it is at a greater distance and none after it at a smaller one; it
    raises ValueError exactly on an empty distance vector. *)
Theorem get_best_fid_first_minimum self :
  match _get_best_fid self with
  | Ok (fid, dist, timeout) =>
      ∃ l1 l2,
        _distance_vector self = l1 ++ (fid, (dist, timeout)) :: l2
        ∧ (∀ x, x ∈ l1 → (dist < x.2.1)%Z)
        ∧ (∀ x, x ∈ l2 → (dist ≤ x.2.1)%Z)
  | Raise e => e = ValueError ∧ _distance_vector self = []
  end.
Proof. apply get_best_fid_split. Qed.

Lemma get_best_fid_elem self best :
  _get_best_fid self = Ok best →
  (best.1.1, (best.1.2, best.2)) ∈ _distance_vector self.
Proof.
  intros Hbest. pose proof (get_best_fid_split self) as Hmin.
  rewrite Hbest in Hmin. destruct best as [[fid dist] timeout].
  destruct Hmin as (l1 & l2 & -> & _). cbn [fst snd].
  apply elem_of_app. right. apply list_elem_of_here.
Qed.

(** *** What [collapse] returns, and the routes of the tree *)

Lemma dict_get_elem {V : Type} (k : Z) (v : V) (d : list (Z * V)) :
  NoDup (map fst d) → (k, v) ∈ d → dict_get k d = Some v.
Proof.
  induction d as [|[k' v'] d IH]; cbn [dict_get map fst];
    [by intros _ ?%elem_of_nil|].
  intros [Hfresh Hd]%NoDup_cons [[= <- <-]|Hin]%elem_of_cons.
  - by rewrite decide_True.
  - rewrite decide_False; [by apply IH|]. intros ->. apply Hfresh.
    rewrite map_fmap. apply list_elem_of_fmap. by exists (k, v).
Qed.

Lemma dict_get_Some {V : Type} (k : Z) (v : V) (d : list (Z * V)) :
  dict_get k d = Some v → (k, v) ∈ d.
Proof.
  induction d as [|[k' v'] d IH]; cbn [dict_get]; [done|].
  case_decide as Hk.
  - intros [= ->]. subst. apply list_elem_of_here.
  - intros Hget. by apply list_elem_of_further, IH.
Qed.

Lemma children_get_elem c cs :
  NoDup (map _nc cs) → c ∈ cs → children_get (_nc c) cs = Some c.
Proof.
  induction cs as [|c' cs IH]; cbn [children_get map];
    [by intros _ ?%elem_of_nil|].
  intros [Hfresh Hcs]%NoDup_cons [->|Hin]%elem_of_cons.
  - by rewrite decide_True.
  - rewrite decide_False; [by apply IH|]. intros Hk. apply Hfresh.
    rewrite Hk, map_fmap. by apply list_elem_of_fmap_2.
Qed.

Lemma own_entries_elem n own e :
  own_entries n = Ok own → e ∈ own →
  e_name e = nclist n
  ∧ (e_fid e, (e_dist e, e_timeout e)) ∈ _distance_vector n.
Proof.
  intros Hown He. split; [by apply (own_entries_name n own)|].
  revert Hown He. unfold own_entries.
  case_decide; [|by intros [= <-] ?%elem_of_nil].
  destruct (_collapse_shortest n).
  - destruct (_get_best_fid n) as [best|] eqn:Hbest; [|done].
    cbn [mbind result_bind]. intros [= <-] ->%list_elem_of_singleton.
    by apply get_best_fid_elem.
  - intros [= <-]. rewrite map_fmap.
    intros ([fid [dist timeout]] & -> & Hin)%list_elem_of_fmap. done.
Qed.


Lemma own_entries_nonempty n own :
  own_entries n = Ok own → _distance_vector n ≠ [] → own ≠ [].
Proof.
  unfold own_entries. case_decide as Hlen.
  - destruct (_collapse_shortest n).
    + destruct (_get_best_fid n); [|done]. cbn [mbind result_bind].
      by intros [= <-].
    + intros [= <-] Hdv. by destruct (_distance_vector n).
  - intros _ Hdv. destruct (_distance_vector n); [done|]. simpl in Hlen. lia.
Qed.

Lemma nclist_app n (path : Name) : nclist n ++ path = below (_nc n) path.
Proof. unfold nclist. by destruct (_nc n). Qed.

(** The entry that [collapse] makes of candidates with one face takes its
    distance and timeout from one of them. *)
Lemma reduce_cases_min self (l res : list entry) :
  reduce self l = Ok res →
  (res = l
   ∧ ¬ (size (list_to_set (map e_fid l) : gset Z) = 1 ∧ 1 < length l))
  ∨ (∃ e0, e0 ∈ l
           ∧ res = [(nclist self, e_fid e0, e_dist e0, e_timeout e0)]).
Proof.
  unfold reduce. case_decide as Hone; [|intros [= <-]; by left].
  destruct (elements _) as [|sf ?]; [done|].
  destruct (py_min _) as [m|] eqn:Hmin; [|done]. cbn [mbind result_bind].
  intros [= <-]. right. apply py_min_spec in Hmin as [Hin _].
  rewrite map_fmap in Hin. apply list_elem_of_fmap in Hin as (e0 & -> & Hin).
  apply list_elem_of_filter in Hin as [<- Hin]. by exists e0.
Qed.

Lemma collapse_children_each l ch_res c :
  collapse_children l = Ok ch_res → c ∈ l → ∃ r, collapse c = Ok r.
Proof.
  revert ch_res. induction l as [|c' l IH]; intros ch_res;
    cbn [collapse_children]; [by intros _ ?%elem_of_nil|].
  destruct (collapse c') as [r|] eqn:Hc; [|done]. cbn [mbind result_bind].
  destruct (collapse_children l) as [rs|]; [|done].
  intros _ [->|Hin]%elem_of_cons; [by exists r | by eapply IH].
Qed.

(** The candidates of a node, and so what [collapse] returns at it, as
    two cases: the candidates as they are, or the one entry made of one of
    them. *)
Lemma collapse_cases self res :
  collapse self = Ok res →
  ∃ ch_res own,
    collapse_children (_children self) = Ok ch_res
    ∧ own_entries self = Ok own
    ∧ ((res = prepend (_nc self) ch_res ++ own
        ∧ (_children self = []
           ∨ ¬ (size (list_to_set (map e_fid res) : gset Z) = 1
                ∧ 1 < length res)))
       ∨ (∃ e0, e0 ∈ prepend (_nc self) ch_res ++ own
                ∧ res = [(nclist self, e_fid e0, e_dist e0, e_timeout e0)])).
Proof.
  rewrite collapse_unfold. case_decide as Hleaf.
  - apply nil_length_inv in Hleaf. intros Hown. exists [], res.
    rewrite Hleaf. split; [done|]. split; [done|]. left.
    split; [by destruct (_nc self) | by left].
  - unfold candidates.
    destruct (collapse_children (_children self)) as [ch_res|]; [|done].
    cbn [mbind result_bind].
    destruct (own_entries self) as [own|]; [|done]. cbn [mbind result_bind].
    intros [[-> Hnot] | (e0 & He0 & ->)]%reduce_cases_min;
      exists ch_res, own; (split; [done|]); (split; [done|]).
    + left. split; [done | by right].
    + right. by exists e0.
Qed.

(** Every candidate of a node is backed by a route of the node's tree. *)
Lemma candidates_sound s p cs nc dv ch_res own e :
  let self := RIBTreeNode s p cs nc dv in
  NoDup (map fst dv) → NoDup (map _nc cs) →
  Forall (λ c, is_Some (_nc c)
               ∧ ∀ res e, collapse c = Ok res → e ∈ res →
                   ∃ path, route_of c path (e_fid e)
                           = Some (e_dist e, e_timeout e)
                           ∧ is_prefix_of (e_name e) (nclist c ++ path) = true)
    cs →
  collapse_children cs = Ok ch_res → own_entries self = Ok own →
  e ∈ prepend nc ch_res ++ own →
  ∃ path, route_of self path (e_fid e) = Some (e_dist e, e_timeout e)
          ∧ is_prefix_of (e_name e) (nclist self ++ path) = true.
Proof.
  intros self Hdv Hcs Hall Hch Hown [He|He]%elem_of_app.
  - apply prepend_elem in He as (e' & He' & -> & -> & -> & ->).
    apply (collapse_children_elem _ _ _ Hch) in He' as (c & r & Hc & Hr & He').
    rewrite Forall_forall in Hall. destruct (Hall c Hc) as [[k Hk] Hsound].
    destruct (Hsound r e' Hr He') as (path & Hroute & Hprefix).
    exists (k :: path). split.
    + rewrite route_of_cons. cbn [self _children]. rewrite <- Hk.
      by rewrite children_get_elem.
    + rewrite nclist_app. cbn [self _nc].
      fold (below nc (e_name e')). rewrite is_prefix_of_below.
      unfold nclist in Hprefix. by rewrite Hk in Hprefix.
  - destruct (own_entries_elem _ _ _ Hown He) as [-> Hin].
    exists []. split.
    + rewrite route_of_nil. by apply dict_get_elem.
    + rewrite app_nil_r. by apply is_prefix_of_prefix.
Qed.

Lemma collapse_sound_node n :
  wf n → ∀ res e, collapse n = Ok res → e ∈ res →
  ∃ path, route_of n path (e_fid e) = Some (e_dist e, e_timeout e)
          ∧ is_prefix_of (e_name e) (nclist n ++ path) = true.
Proof.
  induction n as [s p cs nc dv IH] using node_ind.
  intros (Hdv & Hcs & Hall)%wf_unfold res e Hres He.
  cbn [_distance_vector _children] in *.
  set (self := RIBTreeNode s p cs nc dv) in *.
  destruct (collapse_cases self res Hres) as (ch_res & own & Hch & Hown & Hcase).
  assert (∀ e, e ∈ prepend nc ch_res ++ own →
               ∃ path, route_of self path (e_fid e)
                       = Some (e_dist e, e_timeout e)
                       ∧ is_prefix_of (e_name e) (nclist self ++ path) = true)
    as Hcand.
  { intros e0. apply (candidates_sound s p cs nc dv ch_res own e0); try done.
    rewrite Forall_forall in IH, Hall. apply Forall_forall. intros c Hc.
    destruct (Hall c Hc) as (_ & Hk & Hwf). split; [done|]. by apply IH. }
  destruct Hcase as [[-> _] | (e0 & He0 & ->)].
  - by apply Hcand.
  - apply list_elem_of_singleton in He as ->.
    destruct (Hcand e0 He0) as (path & Hroute & _).
    exists path. split; [done|]. by apply is_prefix_of_app.
Qed.

(** X8: every entry that [collapse] returns on a tree is backed by a
    route of the tree: some name that the entry's name is a prefix of has
    a route by the entry's face, with the entry's distance and timeout. *)
Theorem collapse_entries_are_routes tree res e :
  wf tree → _nc tree = None →
  collapse tree = Ok res → e ∈ res →
  ∃ name : Name,
    route_of tree name (e_fid e) = Some (e_dist e, e_timeout e)
    ∧ is_prefix_of (e_name e) name = true.
Proof.
  intros Hwf Hroot Hres He.
  destruct (collapse_sound_node tree Hwf res e Hres He) as (path & Hr & Hp).
  exists path. split; [done|]. unfold nclist in Hp. by rewrite Hroot in Hp.
Qed.

Lemma collapse_covers_node n :
  wf n → ∀ res (path : Name) fid r, collapse n = Ok res →
  route_of n path fid = Some r →
  ∃ e, e ∈ res ∧ is_prefix_of (e_name e) (nclist n ++ path) = true.
Proof.
  induction n as [s p cs nc dv IH] using node_ind.
  intros (Hdv & Hcs & Hall)%wf_unfold res path fid r Hres Hroute.
  cbn [_distance_vector _children] in *.
  set (self := RIBTreeNode s p cs nc dv) in *.
  destruct (collapse_cases self res Hres) as (ch_res & own & Hch & Hown & Hcase).
  cbn [self _children _nc] in Hch, Hcase.
  assert (∃ e, e ∈ prepend nc ch_res ++ own
               ∧ is_prefix_of (e_name e) (nclist self ++ path) = true)
    as (e & He & Hp).
  { destruct path as [|k path].
    - rewrite route_of_nil in Hroute. cbn [self _distance_vector] in Hroute.
      assert (own ≠ []) as Hne.
      { apply (own_entries_nonempty self own Hown). cbn [self _distance_vector].
        intros ->. done. }
      destruct own as [|e own]; [done|]. exists e.
      split; [apply elem_of_app; right; apply list_elem_of_here|].
      rewrite (own_entries_name self (e :: own) e Hown (list_elem_of_here _ _)).
      by apply is_prefix_of_app.
    - rewrite route_of_cons in Hroute. cbn [self _children] in Hroute.
      destruct (children_get (Some k) cs) as [c|] eqn:Hget; [|done].
      cbn [mbind option_bind] in Hroute.
      apply children_get_Some in Hget as [Hc Hk].
      rewrite Forall_forall in IH, Hall. destruct (Hall c Hc) as (_ & _ & Hwf).
      destruct (collapse_children_each cs ch_res c Hch Hc) as [rc Hrc].
      destruct (IH c Hc Hwf rc path fid r Hrc Hroute) as (e' & He' & Hp').
      exists (below nc (e_name e'), e_fid e', e_dist e', e_timeout e').
      split.
      + apply elem_of_app. left. apply prepend_elem. exists e'.
        split; [|done]. apply (collapse_children_elem _ _ _ Hch).
        by exists c, rc.
      + rewrite nclist_app. cbn [self _nc]. unfold e_name at 1. cbn [fst].
        rewrite is_prefix_of_below. unfold nclist in Hp'.
        by rewrite Hk in Hp'. }
  destruct Hcase as [[-> _] | (e0 & He0 & ->)].
  - by exists e.
  - eexists. split; [apply list_elem_of_here|]. by apply is_prefix_of_app.
Qed.

Lemma insert_all_keeps_routes shortest (routes : list route) (r : route) :
  r ∈ routes →
  is_Some (route_of (RIB._tree (insert_all (RIB.__init__ shortest) routes))
             r.1.1.1 r.1.1.2).
Proof.
  assert (∀ rib,
            _parent (RIB._tree rib) = false →
            r ∈ routes ∨ is_Some (route_of (RIB._tree rib) r.1.1.1 r.1.1.2) →
            is_Some (route_of (RIB._tree (insert_all rib routes))
                       r.1.1.1 r.1.1.2)) as Hall.
  { induction routes as [|r0 routes IH]; intros rib Hroot Hr; cbn [insert_all foldl].
    - destruct Hr as [Hr|Hr]; [by apply elem_of_nil in Hr | done].
    - fold (insert_all (RIB.insert rib r0.1.1.1 r0.1.1.2 r0.1.2 r0.2).1 routes).
      unfold RIB.insert.
      destruct (insert_at_root (RIB._tree rib) r0.1.1.1 r0.1.1.2 r0.1.2 r0.2
                  Hroot) as (tree' & Htree & Hp' & _).
      pose proof (insert_routes (RIB._tree rib) r0.1.1.1 r0.1.1.2 r0.1.2 r0.2
                    r.1.1.1 r.1.1.2 Hroot) as Hroutes.
      rewrite Htree in Hroutes |- *. cbn [fst RIB._tree] in Hroutes |- *.
      apply IH; [done|]. cbn [RIB._tree].
      destruct (decide (r ∈ routes)) as [Hin|Hnin]; [by left | right].
      rewrite Hroutes. case_decide as Hsame; [done|].
      destruct Hr as [[->|Hr]%elem_of_cons | Hr]; [|done..].
      exfalso. by apply Hsame. }
  intros Hr. apply Hall; [done | by left].
Qed.

(** X9: no route is lost by [collapse]: after any sequence of insertions,
    where [collapse] returns, it returns for every name inserted an entry
    whose name is a prefix of it. *)
Theorem collapse_covers_inserted_names shortest (routes : list route)
    (r : route) res :
  r ∈ routes →
  collapse (RIB._tree (insert_all (RIB.__init__ shortest) routes)) = Ok res →
  ∃ e, e ∈ res ∧ is_prefix_of (e_name e) r.1.1.1 = true.
Proof.
  intros Hr Hres.
  destruct (insert_all_root shortest routes) as (_ & Hnc & Hwf).
  destruct (insert_all_keeps_routes shortest routes r Hr) as [v Hv].
  destruct (collapse_covers_node _ Hwf res _ _ v Hres Hv) as (e & He & Hp).
  exists e. split; [done|]. unfold nclist in Hp. by rewrite Hnc in Hp.
Qed.

(** *** One face *)

Lemma collapse_one_entry n (f : Z) res :
  wf n →
  (∀ (name : Name) fid r, route_of n name fid = Some r → fid = f) →
  collapse n = Ok res → length res ≤ 1.
Proof.
  intros Hwf Hface Hres.
  assert (Forall (λ e, e_fid e = f) res) as Hall.
  { apply Forall_forall. intros e He.
    destruct (collapse_sound_node n Hwf res e Hres He) as (path & Hr & _).
    by apply (Hface path _ _ Hr). }
  destruct (collapse_cases n res Hres) as (ch_res & own & Hch & Hown & Hcase).
  destruct Hcase as [[Heq [Hleaf|Hnot]] | (e0 & _ & ->)]; [| |done].
  - rewrite Hleaf in Hch. cbn [collapse_children] in Hch.
    injection Hch as <-.
    assert (res = own) as -> by (rewrite Heq; by destruct (_nc n)).
    apply wf_unfold in Hwf as (Hdv & _).
    apply (own_entries_faces n own Hdv) in Hown.
    destruct own as [|e1 [|e2 own]]; simpl; [lia..|].
    exfalso. cbn [map] in Hown. apply NoDup_cons in Hown as [Hfresh _].
    apply Hfresh. rewrite Forall_forall in Hall.
    rewrite (Hall e1), <- (Hall e2).
    + apply list_elem_of_here.
    + apply list_elem_of_further, list_elem_of_here.
    + apply list_elem_of_here.
  - destruct (decide (1 < length res)) as [Hmany|]; [|lia].
    exfalso. apply Hnot. split; [|done].
    rewrite (all_one_face f); [apply size_singleton | | done].
    intros ->. simpl in Hmany. lia.
Qed.

Lemma find_node_nodes n (path : Name) node :
  find_node n path = Some node → node ∈ nodes n.
Proof.
  revert n. induction path as [|c path IH]; intros n; cbn [find_node].
  - intros [= ->]. destruct node. apply list_elem_of_here.
  - destruct (children_get (Some c) (_children n)) as [child|] eqn:Hget;
      [|done].
    cbn [mbind option_bind]. intros Hfind.
    apply children_get_Some in Hget as [Hin _].
    destruct n as [s p cs nc dv]. cbn [nodes _children] in *.
    apply list_elem_of_further, elem_of_flat_map. exists child.
    split; [done | by apply IH].
Qed.

(** A route of a tree is an entry of the distance vector of one of its
    nodes. *)
Lemma route_of_nodes n (name : Name) fid r :
  route_of n name fid = Some r →
  ∃ node, node ∈ nodes n ∧ (fid, r) ∈ _distance_vector node.
Proof.
  unfold route_of. destruct (find_node n name) as [node|] eqn:Hfind; [|done].
  cbn [mbind option_bind]. intros Hget. exists node.
  split; [by eapply find_node_nodes | by apply dict_get_Some].
Qed.

(** X10: a tree all of whose distance vector entries are by one face
    collapses to at most one entry. *)
Theorem collapse_one_face_one_entry tree (f : Z) res :
  wf tree →
  Forall (λ n, Forall (λ x, x.1 = f) (_distance_vector n)) (nodes tree) →
  collapse tree = Ok res → length res ≤ 1.
Proof.
  intros Hwf Hface. apply (collapse_one_entry tree f); [done|].
  intros name fid r (node & Hnode & Hin)%route_of_nodes.
  rewrite Forall_forall in Hface. specialize (Hface node Hnode).
  rewrite Forall_forall in Hface. by apply (Hface (fid, r)).
Qed.

(** *** Where [collapse] returns *)






(** *** Collapsing after ageing *)

(** X21: what [collapse] returns on a tree after [ageing(now)] is backed
    by routes that the tree had before and that are not out of date: each
    entry has, under its name, a route of the tree before the ageing by
    the entry's face with its distance and timeout, and the timeout, if
    there is one, is after [now]. *)
Theorem collapse_after_ageing now tree res e :
  wf tree → _nc tree = None →
  collapse (ageing now tree).1 = Ok res → e ∈ res →
  ∃ name : Name,
    route_of tree name (e_fid e) = Some (e_dist e, e_timeout e)
    ∧ is_prefix_of (e_name e) name = true
    ∧ ∀ timeout, e_timeout e = Some timeout → (now < timeout)%Z.
Proof.
  intros Hwf Hroot Hres He.
  destruct (collapse_sound_node _ (ageing_wf now tree Hwf) res e Hres He)
    as (path & Hroute & Hprefix).
  destruct (ageing_node now tree) as (_ & _ & Hnc & _).
  unfold nclist in Hprefix. rewrite Hnc, Hroot in Hprefix.
  rewrite ageing_routes in Hroute by done.
  exists path. unfold live in Hroute.
  destruct (route_of tree path (e_fid e)) as [[dist [timeout|]]|]; [| |done].
  - destruct (timeout <=? now)%Z eqn:Hlate; [done|].
    injection Hroute as Hd Ht. rewrite <- Hd, <- Ht.
    split; [done|]. split; [done|]. intros ? [= <-]. lia.
  - injection Hroute as Hd Ht. rewrite <- Hd, <- Ht.
    split; [done|]. split; [done|]. by intros ? [=].
Qed.

End rib_tree.

(** ** The RIB on concrete routes *)

Section rib_examples.
Import Packets RIBTree RIBSpec.

(** C1, as stated, fails: after the insertion of [/a] and [/a/b] by face
    1 and of [/a/c] by face 2, [collapse] returns all three routes, and
    [/a] is a strict prefix of [/a/b], which has the same face. *)
Lemma collapse_not_prefix_minimal :
  collapse (RIB._tree (insert_all (RIB.__init__ true) three_routes))
  = Ok [(["a"; "b"], 1%Z, 1%Z, None);
        (["a"; "c"], 2%Z, 1%Z, None);
        (["a"], 1%Z, 1%Z, None)]
  ∧ ¬ prefix_minimal [(["a"; "b"], 1%Z, 1%Z, None);
                      (["a"; "c"], 2%Z, 1%Z, None);
                      (["a"], 1%Z, 1%Z, None)].
Proof.
  split; [by vm_compute|].
  intros Hmin.
  apply (Hmin (["a"], 1%Z, 1%Z, None) (["a"; "b"], 1%Z, 1%Z, None)).
  - do 2 apply list_elem_of_further. apply list_elem_of_here.
  - apply list_elem_of_here.
  - done.
  - split; [done | discriminate].
Qed.

Lemma collapse_prefix_pairs_witness :
  let res := [(["a"; "b"], 1%Z, 1%Z, None);
              (["a"; "c"], 2%Z, 1%Z, None);
              (["a"], 1%Z, 1%Z, None)] in
  let e1 : entry := (["a"], 1%Z, 1%Z, None) in
  let e2 : entry := (["a"; "b"], 1%Z, 1%Z, None) in
  collapse (RIB._tree (insert_all (RIB.__init__ true) three_routes)) = Ok res
  ∧ e1 ∈ res ∧ e2 ∈ res ∧ e_fid e1 = e_fid e2
  ∧ strict_prefix (e_name e1) (e_name e2)
  ∧ ∃ e3, e3 ∈ res ∧ is_prefix_of (e_name e1) (e_name e3) = true
          ∧ e_fid e3 ≠ e_fid e1.
Proof.
  intros res e1 e2.
  assert (collapse (RIB._tree (insert_all (RIB.__init__ true) three_routes))
          = Ok res) as Hres by (by vm_compute).
  assert (e1 ∈ res) as H1
    by (do 2 apply list_elem_of_further; apply list_elem_of_here).
  assert (e2 ∈ res) as H2 by apply list_elem_of_here.
  assert (strict_prefix (e_name e1) (e_name e2)) as Hstrict
    by (split; [reflexivity | discriminate]).
  repeat (split; [done|]).
  exact (collapse_prefix_pairs true three_routes res e1 e2 Hres H1 H2
           eq_refl Hstrict).
Defined.
(** The scenario of the specification: after the insertion of [/a/b] and
    [/a/c], both by face 1 at distance 1, [collapse] returns exactly the
    entry of [/a]. *)
Example collapse_single_face_scenario :
  collapse (RIB._tree (insert_all (RIB.__init__ true)
                         [(["a"; "b"], 1%Z, 1%Z, None);
                          (["a"; "c"], 1%Z, 1%Z, None)]))
  = Ok [(["a"], 1%Z, 1%Z, None)].
Proof. by vm_compute. Qed.

(** C2 fails on the code where two candidates of the one face are at the
    same distance and only one of them has a timeout: the candidates of
    [/a] are [(/a/b, 1, 1, None)] and [(/a/c, 1, 1, 5)], one face and two
    entries, and [collapse] raises TypeError instead of returning the
    entry of [/a]. *)
Theorem collapse_mixed_timeouts_raises :
  let a :=
    RIBTreeNode true true
      [RIBTreeNode true true [] (Some "b") [(1%Z, (1%Z, None))];
       RIBTreeNode true true [] (Some "c") [(1%Z, (1%Z, Some 5%Z))]]
      (Some "a") [] in
  RIB._tree (insert_all (RIB.__init__ true) mixed_timeouts)
  = RIBTreeNode true false [a] None []
  ∧ candidates a
    = Ok [(["a"; "b"], 1%Z, 1%Z, None); (["a"; "c"], 1%Z, 1%Z, Some 5%Z)]
  ∧ collapse a = Raise TypeError
  ∧ collapse (RIB._tree (insert_all (RIB.__init__ true) mixed_timeouts))
    = Raise TypeError.
Proof. by vm_compute. Qed.

Lemma ageing_cleans_witness :
  let tree := RIB._tree (insert_all (RIB.__init__ true) mixed_timeouts) in
  wf tree
  ∧ (∀ n, n ∈ nodes (ageing 5 tree).1 → fresh 5 n)
  ∧ (∀ n, n ∈ descendants (ageing 5 tree).1 → ¬ empty_leaf n).
Proof.
  intros tree. split; [reflexivity|].
  apply (ageing_cleans 5 tree). reflexivity.
Defined.

Example ageing_scenario :
  (ageing 5 (RIB._tree (insert_all (RIB.__init__ true) mixed_timeouts))).1
  = RIBTreeNode true false
      [RIBTreeNode true true
         [RIBTreeNode true true [] (Some "b") [(1%Z, (1%Z, None))]]
         (Some "a") []]
      None [].
Proof. by vm_compute. Qed.

Lemma insert_then_lookup_witness :
  let self := RIB._tree (insert_all (RIB.__init__ true) three_routes) in
  _parent self = false
  ∧ route_of (insert self ["a"; "d"] 3 2 (Some 9%Z)).1 ["a"; "d"] 3
    = Some (2%Z, Some 9%Z).
Proof.
  intros self. split; [reflexivity|].
  apply (insert_then_lookup self ["a"; "d"] 3 2 (Some 9%Z)). reflexivity.
Defined.

Lemma insert_keeps_other_routes_witness :
  let self := RIB._tree (insert_all (RIB.__init__ true) three_routes) in
  _parent self = false
  ∧ (["a"; "b"] ≠ ["a"; "d"] ∨ 1%Z ≠ 3%Z)
  ∧ route_of (insert self ["a"; "d"] 3 2 (Some 9%Z)).1 ["a"; "b"] 1
    = route_of self ["a"; "b"] 1.
Proof.
  intros self. split; [reflexivity|]. split; [left; discriminate|].
  apply (insert_keeps_other_routes self ["a"; "d"] 3 2 (Some 9%Z) ["a"; "b"] 1);
    [reflexivity | left; discriminate].
Defined.

Lemma insert_returns_well_formed_witness :
  let self := RIB._tree (insert_all (RIB.__init__ true) three_routes) in
  let after := insert self ["a"; "d"] 3 2 (Some 9%Z) in
  _parent self = false ∧ wf self
  ∧ after.2 = Ok () ∧ _parent after.1 = false ∧ _nc after.1 = _nc self
  ∧ wf after.1.
Proof.
  intros self after. split; [reflexivity|]. split; [reflexivity|].
  apply (insert_returns_well_formed self ["a"; "d"] 3 2 (Some 9%Z));
    reflexivity.
Defined.

Lemma ageing_removes_outdated_routes_witness :
  let tree := RIB._tree (insert_all (RIB.__init__ true) mixed_timeouts) in
  wf tree
  ∧ route_of (ageing 5 tree).1 ["a"; "c"] 1
    = match route_of tree ["a"; "c"] 1 with
      | Some (dist, Some timeout) =>
          if (timeout <=? 5)%Z then None else Some (dist, Some timeout)
      | r => r
      end.
Proof.
  intros tree. split; [reflexivity|].
  apply (ageing_removes_outdated_routes 5 tree ["a"; "c"] 1). reflexivity.
Defined.

Lemma ageing_idempotent_witness :
  let tree := RIB._tree (insert_all (RIB.__init__ true) mixed_timeouts) in
  wf tree ∧ ageing 5 (ageing 5 tree).1 = ((ageing 5 tree).1, false).
Proof.
  intros tree. split; [reflexivity|].
  apply (ageing_idempotent 5 tree). reflexivity.
Defined.

Lemma ageing_keeps_invariants_witness :
  let tree := RIB._tree (insert_all (RIB.__init__ true) mixed_timeouts) in
  wf tree
  ∧ wf (ageing 5 tree).1 ∧ _nc (ageing 5 tree).1 = _nc tree
  ∧ ((ageing 5 tree).2 = false → _parent (ageing 5 tree).1 = _parent tree).
Proof.
  intros tree. split; [reflexivity|].
  apply (ageing_keeps_invariants 5 tree). reflexivity.
Defined.

Lemma collapse_entries_are_routes_witness :
  let tree := RIB._tree (insert_all (RIB.__init__ true) three_routes) in
  let res := [(["a"; "b"], 1%Z, 1%Z, None);
              (["a"; "c"], 2%Z, 1%Z, None);
              (["a"], 1%Z, 1%Z, None)] in
  let e : entry := (["a"; "c"], 2%Z, 1%Z, None) in
  wf tree ∧ _nc tree = None ∧ collapse tree = Ok res ∧ e ∈ res
  ∧ ∃ name : Name,
      route_of tree name (e_fid e) = Some (e_dist e, e_timeout e)
      ∧ is_prefix_of (e_name e) name = true.
Proof.
  intros tree res e.
  assert (e ∈ res) as He
    by (apply list_elem_of_further, list_elem_of_here).
  split; [reflexivity|]. split; [reflexivity|]. split; [by vm_compute|].
  split; [done|].
  apply (collapse_entries_are_routes tree res e);
    [reflexivity | reflexivity | by vm_compute | done].
Defined.

Lemma collapse_covers_inserted_names_witness :
  let res := [(["a"; "b"], 1%Z, 1%Z, None);
              (["a"; "c"], 2%Z, 1%Z, None);
              (["a"], 1%Z, 1%Z, None)] in
  let r : route := (["a"; "b"], 1%Z, 1%Z, None) in
  r ∈ three_routes
  ∧ collapse (RIB._tree (insert_all (RIB.__init__ true) three_routes)) = Ok res
  ∧ ∃ e, e ∈ res ∧ is_prefix_of (e_name e) r.1.1.1 = true.
Proof.
  intros res r.
  assert (r ∈ three_routes) as Hr
    by (apply list_elem_of_further, list_elem_of_here).
  split; [done|]. split; [by vm_compute|].
  apply (collapse_covers_inserted_names true three_routes r res);
    [done | by vm_compute].
Defined.

Lemma collapse_one_face_one_entry_witness :
  let tree :=
    RIB._tree (insert_all (RIB.__init__ true)
                 [(["a"; "b"], 1%Z, 1%Z, None); (["a"; "c"], 1%Z, 1%Z, None)]) in
  let res := [(["a"], 1%Z, 1%Z, None)] in
  wf tree
  ∧ Forall (λ n, Forall (λ x, x.1 = 1%Z) (_distance_vector n)) (nodes tree)
  ∧ collapse tree = Ok res
  ∧ length res ≤ 1.
Proof.
  intros tree res.
  assert (Forall (λ n, Forall (λ x, x.1 = 1%Z) (_distance_vector n))
            (nodes tree)) as Hface
    by (apply (bool_decide_unpack _); vm_compute; exact I).
  split; [reflexivity|]. split; [done|]. split; [by vm_compute|].
  apply (collapse_one_face_one_entry tree 1 res);
    [reflexivity | done | by vm_compute].
Defined.


Lemma collapse_after_ageing_witness :
  let tree := RIB._tree (insert_all (RIB.__init__ true) mixed_timeouts) in
  let res := [(["a"; "b"], 1%Z, 1%Z, None)] in
  let e : entry := (["a"; "b"], 1%Z, 1%Z, None) in
  wf tree ∧ _nc tree = None ∧ collapse (ageing 5 tree).1 = Ok res ∧ e ∈ res
  ∧ ∃ name : Name,
      route_of tree name (e_fid e) = Some (e_dist e, e_timeout e)
      ∧ is_prefix_of (e_name e) name = true
      ∧ ∀ timeout, e_timeout e = Some timeout → (5 < timeout)%Z.
Proof.
  intros tree res e.
  assert (e ∈ res) as He by apply list_elem_of_here.
  split; [reflexivity|]. split; [reflexivity|]. split; [by vm_compute|].
  split; [done|].
  apply (collapse_after_ageing 5 tree res e);
    [reflexivity | reflexivity | by vm_compute | done].
Defined.

(** [build_fib] twice on the RIB of [three_routes], from an empty store:
    each call builds three lists of its own, and both FIB lists read
    [/a/b] by face 1, [/a/c] by face 2, [/a] by face 1. *)
Example fib_compiled_twice_scenario :
  let rib := insert_all (RIB.__init__ true) three_routes in
  let first := Store.build_fib rib [] in
  let second := Store.build_fib rib first.1 in
  first = ([["a"; "b"]; ["a"; "c"]; ["a"]],
           Ok [(0, 1%Z, false); (1, 2%Z, false); (2, 1%Z, false)])
  ∧ second = ([["a"; "b"]; ["a"; "c"]; ["a"]; ["a"; "b"]; ["a"; "c"]; ["a"]],
              Ok [(3, 1%Z, false); (4, 2%Z, false); (5, 1%Z, false)])
  ∧ (RIB.build_fib rib).2
    = Ok [FibEntry ["a"; "b"] 1 false; FibEntry ["a"; "c"] 2 false;
          FibEntry ["a"] 1 false].
Proof. by vm_compute. Qed.

End rib_examples.
